(** * yangform: export of XPath / RESTCONF paths from a YANG schema tree

    A shallow embedding of [cmd/export.go] (the text-mode loop of the
    [export] command) and of the [path] package ([Path], [Paths],
    [Template]), together with the properties of the tree walker and of
    the two renderers.

    Strings are Go strings: sequences of bytes, here [string] (a list of
    8-bit [ascii]).  Go maps are modelled by association lists whose
    order is the (unspecified) iteration order of the map, or by [gmap]
    where only lookups matter. *)

From Stdlib Require Import Ascii NArith.
From stdpp Require Import base option list sorting strings gmap.

#[local] Set Warnings "-register-all".

Local Open Scope N_scope.
Local Open Scope stdpp_scope.

(** ** The Go standard library functions used by the program *)

(** The double quote character, as a one-byte string. *)
Definition dquote : string := String "034"%char "".

(** Package [strings]. *)
Module GoStrings.

(** [strings.HasPrefix s prefix]. *)
Fixpoint HasPrefix (s prefix : string) {struct prefix} : bool :=
  match prefix, s with
  | EmptyString, _ => true
  | String a prefix', String b s' =>
      if decide (a = b) then HasPrefix s' prefix' else false
  | String _ _, EmptyString => false
  end.

(** The loop of [strings.Split] for a non-empty separator: [s] is cut at
    every occurrence of [sep] found scanning from the left, occurrences
    never overlapping.  The result is the piece being read and the
    pieces after it.  [skip] counts the bytes of a separator that has
    been recognised and is still to be dropped. *)
Fixpoint splitFrom (sep : string) (skip : nat) (s : string)
  : string * list string :=
  match s with
  | EmptyString => (EmptyString, [])
  | String c s' =>
      match skip with
      | S k => splitFrom sep k s'
      | O =>
          if HasPrefix (String c s') sep
          then let '(h, t) := splitFrom sep (String.length sep - 1) s' in
               (EmptyString, h :: t)
          else let '(h, t) := splitFrom sep 0 s' in
               (String c h, t)
      end
  end.

(** [strings.Split s sep], for the non-empty separators the program
    uses (a space, and the three colons of a template variable). *)
Definition Split (s sep : string) : list string :=
  let '(h, t) := splitFrom sep 0 s in h :: t.

(** [strings.Join elems sep]. *)
Fixpoint Join (elems : list string) (sep : string) : string :=
  match elems with
  | [] => EmptyString
  | [x] => x
  | x :: rest => x +:+ sep +:+ Join rest sep
  end.

(** [strings.Contains s substr]: whether [substr] is within [s]. *)
Fixpoint Contains (s substr : string) : bool :=
  HasPrefix s substr
  || match s with
     | EmptyString => false
     | String _ s' => Contains s' substr
     end.

End GoStrings.

(** Packages [unicode/utf8], [strconv] and [fmt], as far as the verb
    [%+q] applied to a slice of strings needs them. *)
Module GoFmt.

Definition RuneError : N := 0xFFFD.

(** The table [first] of [unicode/utf8] for a leading byte above 0x7F:
    the length of the encoding and the range accepted for the second
    byte, or [None] for a byte that cannot start an encoding. *)
Definition first (b : N) : option (nat * (N * N)) :=
  if b <? 0xC2 then None
  else if b <=? 0xDF then Some (2%nat, (0x80, 0xBF))
  else if b =? 0xE0 then Some (3%nat, (0xA0, 0xBF))
  else if b <=? 0xEC then Some (3%nat, (0x80, 0xBF))
  else if b =? 0xED then Some (3%nat, (0x80, 0x9F))
  else if b <=? 0xEF then Some (3%nat, (0x80, 0xBF))
  else if b =? 0xF0 then Some (4%nat, (0x90, 0xBF))
  else if b <=? 0xF3 then Some (4%nat, (0x80, 0xBF))
  else if b =? 0xF4 then Some (4%nat, (0x80, 0x8F))
  else None.

Definition byteAt (s : string) (i : nat) : option N :=
  N_of_ascii <$> String.get i s.

Definition continuation (b : N) : bool := (0x80 <=? b) && (b <=? 0xBF).

(** [utf8.DecodeRuneInString s] for a string whose first byte [s0] is
    0x80 or above: the rune and the number of bytes it takes. *)
Definition DecodeRuneInString (s0 : N) (s : string) : N * nat :=
  match first s0 with
  | None => (RuneError, 1%nat)
  | Some (sz, (lo, hi)) =>
      if (String.length s <? sz)%nat then (RuneError, 1%nat) else
      match byteAt s 1 with
      | None => (RuneError, 1%nat)
      | Some s1 =>
          if (s1 <? lo) || (hi <? s1) then (RuneError, 1%nat) else
          if (sz <=? 2)%nat
          then (N.lor (N.shiftl (N.land s0 0x1F) 6) (N.land s1 0x3F), 2%nat)
          else
          match byteAt s 2 with
          | None => (RuneError, 1%nat)
          | Some s2 =>
              if negb (continuation s2) then (RuneError, 1%nat) else
              if (sz <=? 3)%nat
              then (N.lor (N.lor (N.shiftl (N.land s0 0x0F) 12)
                                 (N.shiftl (N.land s1 0x3F) 6))
                          (N.land s2 0x3F), 3%nat)
              else
              match byteAt s 3 with
              | None => (RuneError, 1%nat)
              | Some s3 =>
                  if negb (continuation s3) then (RuneError, 1%nat) else
                  (N.lor (N.lor (N.lor (N.shiftl (N.land s0 0x07) 18)
                                       (N.shiftl (N.land s1 0x3F) 12))
                                (N.shiftl (N.land s2 0x3F) 6))
                         (N.land s3 0x3F), 4%nat)
              end
          end
      end
  end.

(** [lowerhex[d]] as a one-byte string. *)
Definition lowerhex (d : N) : string :=
  match String.get (N.to_nat d) "0123456789abcdef" with
  | Some c => String c EmptyString
  | None => EmptyString
  end.

(** The hexadecimal digits of [r] from bit [4 * n - 4] down to bit 0. *)
Fixpoint hexDigits (n : nat) (r : N) : string :=
  match n with
  | O => EmptyString
  | S k => lowerhex (N.land (N.shiftr r (4 * N.of_nat k)) 0xF) +:+ hexDigits k r
  end.

Definition byteString (r : N) : string := String (ascii_of_N r) EmptyString.

Definition ValidRune (r : N) : bool :=
  (r <? 0xD800) || ((0xDFFF <? r) && (r <=? 0x10FFFF)).

(** [strconv.appendEscapedRune] with the double quote as quote and
    [ASCIIonly] set. *)
Definition appendEscapedRune (r : N) : string :=
  if (r =? 34) || (r =? 92) then "\" +:+ byteString r
  else if (r <? 0x80) && (0x20 <=? r) && (r <? 0x7F) then byteString r
  else if r =? 7 then "\a"
  else if r =? 8 then "\b"
  else if r =? 12 then "\f"
  else if r =? 10 then "\n"
  else if r =? 13 then "\r"
  else if r =? 9 then "\t"
  else if r =? 11 then "\v"
  else if (r <? 0x20) || (r =? 0x7F) then "\x" +:+ hexDigits 2 r
  else if negb (ValidRune r) then "\u" +:+ hexDigits 4 RuneError
  else if r <? 0x10000 then "\u" +:+ hexDigits 4 r
  else "\U" +:+ hexDigits 8 r.

(** The loop of [strconv.appendQuotedWith]; [skip] counts the bytes of
    the rune just written that are still to be dropped. *)
Fixpoint appendQuoted (skip : nat) (s : string) : string :=
  match s with
  | EmptyString => EmptyString
  | String c s' =>
      match skip with
      | S k => appendQuoted k s'
      | O =>
          let b := N_of_ascii c in
          let '(r, width) :=
            if b <? 0x80 then (b, 1%nat) else DecodeRuneInString b (String c s') in
          (if (width =? 1)%nat && (r =? RuneError)
           then "\x" +:+ hexDigits 2 b
           else appendEscapedRune r) +:+ appendQuoted (width - 1) s'
      end
  end.

(** [strconv.QuoteToASCII s], what [%+q] prints for a string. *)
Definition QuoteToASCII (s : string) : string :=
  dquote +:+ appendQuoted 0 s +:+ dquote.

(** [fmt.Sprintf("%+q", a)] for a slice of strings [a]: the quoted
    elements, separated by spaces, between square brackets. *)
Definition SprintfPlusQ (a : list string) : string :=
  "[" +:+ GoStrings.Join (QuoteToASCII <$> a) " " +:+ "]".

End GoFmt.


(** ** Package [github.com/fatih/color] *)
Module color.

(** A [*color.Color]: the decoration it puts around a string when
    colours are enabled (escape sequences of the terminal). *)
Record Color := New { wrap : string → string }.

(** [c.Sprint(s)] and [c.Sprintf(...)] once the arguments are formatted
    into [s], under the package variable [color.NoColor]. *)
Definition Sprint (c : Color) (NoColor : bool) (s : string) : string :=
  if NoColor then s else wrap c s.

(** The decoration of an SGR attribute [attr]: [ESC "[" attr "m"]
    before the text and [ESC "[0m"] after it.  [Bold] and [Faint] are
    [color.New(color.Bold)] and [color.New(color.Faint)], attributes 1
    and 2. *)
Definition escape : string := String "027"%char "".
Definition sgr (attr : string) : Color :=
  New (λ s, escape +:+ "[" +:+ attr +:+ "m" +:+ s +:+ escape +:+ "[0m").
Definition Bold : Color := sgr "1".
Definition Faint : Color := sgr "2".

End color.

(** ** Package [github.com/openconfig/goyang/pkg/yang]: the schema tree

    The walker follows the pointers [e.Type], [ut.YangType] and [Enum]
    without a nil check; goyang sets them on the entries it builds from
    a processed module, and here they are always present. *)
Module yang.

(** [yang.TriState]; [TSUnset] is the zero value. *)
Inductive TriState := TSUnset | TSTrue | TSFalse.

Global Instance TriState_eq_dec : EqDecision TriState.
Proof. solve_decision. Defined.

(** [yang.TypeKind]. *)
Inductive TypeKind :=
| Ynone | Yint8 | Yint16 | Yint32 | Yint64
| Yuint8 | Yuint16 | Yuint32 | Yuint64
| Ybinary | Ybits | Ybool | Ydecimal64 | Yempty | Yenum
| Yidentityref | YinstanceIdentifier | Yleafref | Ystring | Yunion.

Global Instance TypeKind_eq_dec : EqDecision TypeKind.
Proof. solve_decision. Defined.

(** [yang.YangType], a resolved type: its kind, the path of a leafref
    and, for [Enum], the list that [Enum.Names()] returns. *)
Module YangType.
Record t := mk { Kind : TypeKind; Path : string; Enum_Names : list string }.
End YangType.

(** [yang.Type], a type statement as written: its name, the name of
    the identity it is based on ([IdentityBase], a pointer that may be
    nil), its resolved type, and the member types of a union. *)
Module Type_.
Inductive t := mk {
  Name : string;
  IdentityBase : option string;
  YangType : YangType.t;
  Type_ : list t
}.
End Type_.

(** The dynamic type of [Entry.Node]; a [*yang.Leaf] carries its type
    statement.  [OtherNode] stands for every node type the walker has
    no case for (choice, case, rpc, notification, ...). *)
Inductive Node :=
| ModuleNode
| ContainerNode
| ListNode
| LeafListNode
| LeafNode (Leaf_Type : Type_.t)
| OtherNode.

(** [yang.Entry].  [Type_] is the resolved type [e.Type], which the
    walker reads on leaves only.  [Dir] is the map from child names to
    child entries, as the list of its bindings in the order in which
    the Go runtime happens to iterate over it. *)
Module Entry.
Inductive t := mk {
  Name : string;
  Node_ : Node;
  Config : TriState;
  Key : string;
  Type_ : YangType.t;
  Dir : list (string * t)
}.
End Entry.

(** Whether [e.Node] is a [*yang.Leaf]. *)
Definition isLeaf (e : Entry.t) : bool :=
  match Entry.Node_ e with LeafNode _ => true | _ => false end.

(** [m[k]] for a map given by its bindings. *)
Fixpoint lookup_dir {A} (k : string) (dir : list (string * A)) : option A :=
  match dir with
  | [] => None
  | (k', v) :: rest => if decide (k' = k) then Some v else lookup_dir k rest
  end.

(** A [*yang.Module], as far as [RunE] reads it: its name. *)
Module Module_.
Record t := mk { Name : string }.
End Module_.

End yang.

(** [sort.Strings]: the strings in increasing order (byte-wise
    lexicographic, as Go compares strings). *)
Definition sort_Strings (l : list string) : list string :=
  merge_sort String.le l.

(** ** The process: configuration and observable effects *)

(** The values of [github.com/spf13/viper] that the [export] command
    binds to its flags, one field per key ([path-format] is
    [path_format], and so on). *)
Module viper.
Record t := mk {
  path_format : string;
  path_style : string;
  path_with_module : string;
  path_node_state : bool;
  path_only_nodes : string;
  path_types : string;
  path_template : string;
  path_template_vars : list string;
  path_no_color : bool
}.
End viper.

(** A Go [error], by its message. *)
Definition error : Type := string.

(** What the program does to the outside, in order: bytes written to
    the standard output, a message given to [log.Printf], a file read
    with [ioutil.ReadFile]. *)
Inductive Event :=
| Stdout (data : string)
| LogPrintf (msg : string)
| ReadFile (filename : string).

(** Computations that perform events and return a value or an error. *)
Inductive Res (A : Type) := Ok (a : A) | Err (err : error).
Arguments Ok {A} a.
Arguments Err {A} err.

Definition M (A : Type) : Type := list Event * Res A.

Definition ret {A} (a : A) : M A := ([], Ok a).
Definition fail {A} (err : error) : M A := ([], Err err).
Definition emit (ev : Event) : M unit := ([ev], Ok tt).
Definition bind {A B} (m : M A) (k : A → M B) : M B :=
  match m with
  | (evs, Ok a) => let '(evs', r) := k a in (evs ++ evs', r)
  | (evs, Err err) => (evs, Err err)
  end.

Notation "x ←' m ;' k" := (bind m (λ x, k))
  (at level 100, m at next level, right associativity).
Notation "m ;;' k" := (bind m (λ _, k))
  (at level 100, right associativity).

Definition newline : string := String "010"%char "".
Definition tab : string := String "009"%char "".

(** ** Package [path] *)
Module path.
Import yang.

(** [Path] represents a path in the YANG tree. *)
Module Path.
Record t := mk {
  Module_ : string;
  Type_ : option Type_.t;
  XPath : string;
  RestConfPath : string;
  SType : string;
  Config : TriState
}.

(** [Path{}], the zero value. *)
Definition zero : t := mk "" None "" "" "" TSUnset.

Global Instance inhabited : Inhabited t := populate zero.

Definition set_Module (v : string) (p : t) : t :=
  mk v (Type_ p) (XPath p) (RestConfPath p) (SType p) (Config p).
Definition set_Type (v : option yang.Type_.t) (p : t) : t :=
  mk (Module_ p) v (XPath p) (RestConfPath p) (SType p) (Config p).
Definition set_XPath (v : string) (p : t) : t :=
  mk (Module_ p) (Type_ p) v (RestConfPath p) (SType p) (Config p).
Definition set_RestConfPath (v : string) (p : t) : t :=
  mk (Module_ p) (Type_ p) (XPath p) v (SType p) (Config p).
Definition set_SType (v : string) (p : t) : t :=
  mk (Module_ p) (Type_ p) (XPath p) (RestConfPath p) v (Config p).
Definition set_Config (v : TriState) (p : t) : t :=
  mk (Module_ p) (Type_ p) (XPath p) (RestConfPath p) (SType p) v.
End Path.

Section Walker.

(** [keyColor := color.New(color.Bold)] and
    [typeColor := color.New(color.Faint)]: the decorations of list keys
    and of type strings.  The walker is defined for any pair of
    decorations; [color.Bold] and [color.Faint] are the program's. *)
Variables keyColor typeColor : color.Color.

(** [if e.Config != yang.TSUnset { p.Config = e.Config }]. *)
Definition inheritConfig (e : Entry.t) (p : Path.t) : Path.t :=
  if decide (Entry.Config e = TSUnset) then p
  else Path.set_Config (Entry.Config e) p.

(** One member [ut] of a union, in the loop over [Type.Type]. *)
Definition unionMember (ut : Type_.t) : string :=
  match Type_.IdentityBase ut with
  | Some base => "identityref->" +:+ base
  | None =>
      if decide (YangType.Kind (Type_.YangType ut) = Yenum)
      then "enumeration" +:+ GoFmt.SprintfPlusQ (YangType.Enum_Names (Type_.YangType ut))
      else Type_.Name ut
  end.

(** The value built in [p.SType] for the leaf [e] whose type statement
    is [leaf]. *)
Definition leafSType (NoColor : bool) (e : Entry.t) (leaf : Type_.t) : string :=
  let s := color.Sprint typeColor NoColor (Type_.Name leaf) in
  let s :=
    match Type_.IdentityBase leaf with
    | Some base => s +:+ color.Sprint typeColor NoColor ("->" +:+ base)
    | None => s
    end in
  let s :=
    if decide (YangType.Kind (Entry.Type_ e) = Yleafref)
    then s +:+ color.Sprint typeColor NoColor ("->" +:+ YangType.Path (Entry.Type_ e))
    else s in
  let s :=
    if decide (YangType.Kind (Entry.Type_ e) = Yenum)
    then s +:+ color.Sprint typeColor NoColor
                 (GoFmt.SprintfPlusQ (YangType.Enum_Names (Entry.Type_ e)))
    else s in
  if decide (YangType.Kind (Entry.Type_ e) = Yunion)
  then s +:+ color.Sprint typeColor NoColor
               ("{" +:+ GoStrings.Join (unionMember <$> Type_.Type_ leaf) " " +:+ "}")
  else s.

(** The key elements [xKElem] and [rKElem] of a list. *)
Definition keyElems (NoColor : bool) (e : Entry.t) : string * string :=
  if decide (Entry.Key e = "") then ("", "")
  else
    let keys := GoStrings.Split (Entry.Key e) " " in
    (foldl (λ xKElem k, xKElem +:+ color.Sprint keyColor NoColor ("[" +:+ k +:+ "=*]"))
           "" keys,
     color.Sprint keyColor NoColor (GoStrings.Join keys ",")).

(** The type switch on [e.Node]: the accumulator [p] after the node, and
    the record list [ps], one record longer on a leaf. *)
Definition visit (e : Entry.t) (p : Path.t) (ps : list Path.t) (termcolor : bool)
  : Path.t * list Path.t :=
  let NoColor := negb termcolor in
  match Entry.Node_ e with
  | ModuleNode => (Path.set_Module (Entry.Name e) p, ps)
  | ContainerNode =>
      let p := Path.set_XPath (Path.XPath p +:+ "/" +:+ Entry.Name e) p in
      let p := Path.set_RestConfPath (Path.RestConfPath p +:+ "/" +:+ Entry.Name e) p in
      (inheritConfig e p, ps)
  | ListNode =>
      let p := inheritConfig e p in
      let '(xKElem, rKElem) := keyElems NoColor e in
      let p := Path.set_XPath (Path.XPath p +:+ "/" +:+ Entry.Name e +:+ xKElem) p in
      let p := Path.set_RestConfPath
                 (Path.RestConfPath p +:+ "/" +:+ Entry.Name e +:+ "=" +:+ rKElem) p in
      (p, ps)
  | LeafListNode => (inheritConfig e p, ps)
  | LeafNode leaf =>
      let p := inheritConfig e p in
      let p := Path.set_XPath (Path.XPath p +:+ "/" +:+ Entry.Name e) p in
      let p := Path.set_RestConfPath (Path.RestConfPath p +:+ "/" +:+ Entry.Name e) p in
      let p := Path.set_Type (Some leaf) p in
      let p := Path.set_SType (leafSType NoColor e leaf) p in
      (p, ps ++ [p])
  | OtherNode => (p, ps)
  end.

(** [Paths] recursively traverses the entry's directory [Dir] down to
    the leaves, populating [p] along the way; on a leaf [p] is added to
    [ps].  The result is the final [*ps].

    [walk] pairs every key of [e.Dir] with the walker of its entry, so
    that [e.Dir[k]] followed by the recursive call is a lookup in [walk]
    and the recursion is structural; a key of [ne] is always bound. *)
Fixpoint Paths (e : Entry.t) (p : Path.t) (ps : list Path.t) (termcolor : bool)
  {struct e} : list Path.t :=
  let '(p, ps) := visit e p ps termcolor in
  let ne := sort_Strings (fst <$> Entry.Dir e) in
  let walk := (λ kc, (fst kc, Paths (snd kc))) <$> Entry.Dir e in
  foldl (λ ps k,
           match lookup_dir k walk with
           | Some Paths_k => Paths_k p ps termcolor
           | None => ps
           end) ps ne.

(** *** The walker with its variables in memory

    [ps] points to a slice of pointers: on a leaf the walker appends
    [&p], the address of the variable [p] of the call, not its value.
    Here every call of [Paths] has its variable [p] in a cell of its
    own of a store (a call takes the next free cell and copies its
    argument into it), the type switch writes that cell, a leaf appends
    the address of the cell, and the argument of a recursive call is
    the value read from the cell at the time of the call. *)

Definition visitAt (e : Entry.t) (addr : nat) (st : list Path.t) (ps : list nat)
    (termcolor : bool) : list Path.t * list nat :=
  (<[ addr := (visit e (st !!! addr) [] termcolor).1 ]> st,
   if isLeaf e then ps ++ [addr] else ps).

Fixpoint PathsAt (e : Entry.t) (p : Path.t) (st : list Path.t) (ps : list nat)
    (termcolor : bool) {struct e} : list Path.t * list nat :=
  let addr := length st in
  let '(st, ps) := visitAt e addr (st ++ [p]) ps termcolor in
  let ne := sort_Strings (fst <$> Entry.Dir e) in
  let walk := (λ kc, (fst kc, PathsAt (snd kc))) <$> Entry.Dir e in
  foldl (λ '(st, ps) k,
           match lookup_dir k walk with
           | Some Paths_k => Paths_k (st !!! addr) st ps termcolor
           | None => (st, ps)
           end) (st, ps) ne.

End Walker.

(** [templateIntput] holds the HTML template variables. *)
Record templateIntput := mkTemplateIntput {
  Paths_ : list Path.t;
  Vars : gmap string string
}.

(** The default template used in [Template]. *)
Definition defTemplate : string :=
  GoStrings.Join
    [ "";
      "<table class=" +:+ dquote +:+ "table table-striped" +:+ dquote +:+ ">";
      "<thead>";
      "  <tr>";
      tab +:+ "<th>#</th>";
      tab +:+ "<th>Module</th>";
      tab +:+ "<th>Path</th>";
      tab +:+ "<th>Leaf Type</th>";
      "  </tr>";
      "</thead>";
      "<tbody>";
      "{{range $i, $p  := .Paths}}";
      "<tr>";
      tab +:+ "<td>{{$i}}</td>";
      tab +:+ "<td>{{$p.Module}}</td>";
      tab +:+ "<td>{{$p.XPath}}</td>";
      tab +:+ "<td>{{$p.Type.Name}}</td>";
      "  </tr>";
      "{{end}}";
      "</tbody>";
      "</table>";
      "" ]
    newline.

Section Renderer.

(** The state of viper, the file system seen by [ioutil.ReadFile], and
    the engine of [html/template]: parsing a template body, and
    executing a parsed template on an input, which yields the bytes
    written before the engine stops and the error it stops with, if
    any. *)
Variable v : viper.t.
Variable readFile : string → Res string.
Variable Tmpl : Type.
Variable Parse : string → Res Tmpl.
Variable Execute : Tmpl → templateIntput → string * option error.

Definition ioutil_ReadFile (filename : string) : M string :=
  (emit (ReadFile filename)) ;;' ([], readFile filename).

(** The loop over [vars]: every variable is split at [":::"]; one
    without the separator is logged and skipped, any other binds its
    first piece to the remaining pieces joined again. *)
Fixpoint templateVars (vars : list string) (Vars : gmap string string)
  : M (gmap string string) :=
  match vars with
  | [] => ret Vars
  | var :: vars' =>
      let vk := GoStrings.Split var ":::" in
      if (length vk <? 2)%nat
      then (emit (LogPrintf ("ignoring variable " +:+ var))) ;;' templateVars vars' Vars
      else templateVars vars' (<[ hd "" vk := GoStrings.Join (tl vk) ":::" ]> Vars)
  end.

(** The [switch] that chooses the template body [outTemplate]. *)
Definition outTemplate (t : string) : M string :=
  if decide (t ≠ "")
  then ioutil_ReadFile (viper.path_template v)
  else ret defTemplate.

(** [Template] takes template [t], paths [ps] and template variables
    [vars] and renders the template to stdout.  The result [Ok tt] is
    the [nil] error. *)
Definition Template (t : string) (ps : list Path.t) (vars : list string) : M unit :=
  outTemplate ←' outTemplate t ;'
  tmpl ←' ([], Parse outTemplate) ;'
  Vars ←' templateVars vars ∅ ;'
  let '(out, err) := Execute tmpl (mkTemplateIntput ps Vars) in
  (emit (Stdout out)) ;;'
  match err with
  | Some err => fail err
  | None => ret tt
  end.

End Renderer.

End path.

(** ** Package [cmd]: the text output of the [export] command *)
Module cmd.
Import yang.
Import path.

(** The first [switch] of the loop body: whether the record is left out
    ([continue]) under the value of [path-only-nodes]. *)
Definition skipped (v : viper.t) (p : Path.t) : bool :=
  if decide (viper.path_only_nodes v = "config")
  then bool_decide (Path.Config p = TSFalse)
  else if decide (viper.path_only_nodes v = "state")
  then bool_decide (Path.Config p = TSTrue ∨ Path.Config p = TSUnset)
  else false.

(** [cfgElem], the node state element of a row. *)
Definition cfgElem (p : Path.t) : string :=
  if decide (Path.Config p = TSFalse) then "[ro]" else "[rw]".

(** The slice [ps] of the elements of a row.  [None] is the run-time
    panic of [path.Type.Name] on a record whose [Type] is nil. *)
Definition rowElems (v : viper.t) (p : Path.t) : option (list string) :=
  let ps := [] in
  let ps := if decide (viper.path_with_module v = "yes")
            then ps ++ [Path.Module_ p] else ps in
  let ps := if viper.path_node_state v then ps ++ [cfgElem p] else ps in
  let ps := if decide (viper.path_style v = "xpath") then ps ++ [Path.XPath p]
            else if decide (viper.path_style v = "restconf")
                 then ps ++ [Path.RestConfPath p]
                 else ps in
  if decide (viper.path_types v = "yes")
  then ty ← Path.Type_ p; Some (ps ++ [Type_.Name ty])
  else if decide (viper.path_types v = "detailed")
       then Some (ps ++ [Path.SType p])
       else Some ps.

(** The loop over [paths] in text format: the lines written by
    [fmt.Println], one event each, and [Err] if the loop panics. *)
Fixpoint textMode (v : viper.t) (paths : list Path.t) : M unit :=
  match paths with
  | [] => ret tt
  | p :: paths' =>
      if skipped v p then textMode v paths'
      else
        match rowElems v p with
        | None => fail "invalid memory address or nil pointer dereference"
        | Some ps =>
            (emit (Stdout (GoStrings.Join ps "  " +:+ newline))) ;;'
            textMode v paths'
        end
  end.

(** The loop of [RunE] over [ms.Modules], which gets the name [mn] of
    the module and removes the modules with a revision.  [iter] is the
    bindings of the map in the order in which [range] produces them
    (the loop deletes the current key only, so that every binding is
    produced once); the result is the map and [mn] after the loop. *)
Fixpoint rangeModules (iter : list (string * Module_.t))
    (Modules : gmap string Module_.t) (mn : string)
  : gmap string Module_.t * string :=
  match iter with
  | [] => (Modules, mn)
  | (k, m) :: iter' =>
      if GoStrings.Contains k "@"
      then rangeModules iter' (delete k Modules) mn
      else rangeModules iter' Modules (Module_.Name m)
  end.

Section RunE.

Variable v : viper.t.
Variable readFile : string → Res string.
Variable Tmpl : Type.
Variable Parse : string → Res Tmpl.
Variable Execute : Tmpl → templateIntput → string * option error.

(** [RunE] from the entry [e] of the module on: the walk, then the
    output in the format asked for.  An error of [Template] ends the
    process in [log.Fatal]. *)
Definition RunE (e : Entry.t) : M unit :=
  let paths :=
    Paths color.Bold color.Faint e Path.zero [] (negb (viper.path_no_color v)) in
  (if decide (viper.path_format v = "text") then textMode v paths else ret tt) ;;'
  (if decide (viper.path_format v = "html")
   then Template v readFile Tmpl Parse Execute
          (viper.path_template v) paths (viper.path_template_vars v)
   else ret tt).

End RunE.

End cmd.

(** ** Notions of the specification *)
Module Spec.
Import yang.
Import path.

(** The rows of the given records, none left out: the text loop
    without its filter. *)
Fixpoint printRows (v : viper.t) (paths : list Path.t) : M unit :=
  match paths with
  | [] => ret tt
  | p :: paths' =>
      match cmd.rowElems v p with
      | None => fail "invalid memory address or nil pointer dereference"
      | Some ps =>
          (emit (Stdout (GoStrings.Join ps "  " +:+ newline))) ;;'
          printRows v paths'
      end
  end.

(** *** Schema trees *)

(** A schema tree is well formed when the bindings of every [Dir] have
    distinct keys, as the bindings of a Go map do. *)
Fixpoint wf (e : Entry.t) : bool :=
  bool_decide (NoDup (fst <$> Entry.Dir e))
  && forallb (λ kc, wf (snd kc)) (Entry.Dir e).

(** The bindings of [e.Dir] in the order in which the walker visits
    them: the sorted keys, each with the entry it is bound to. *)
Definition sortedDir (e : Entry.t) : list (string * Entry.t) :=
  omap (λ k, pair k <$> lookup_dir k (Entry.Dir e))
       (sort_Strings (fst <$> Entry.Dir e)).

Definition children (e : Entry.t) : list Entry.t := snd <$> sortedDir e.

(** The number of leaf nodes of the tree under [e], [e] included. *)
Fixpoint leaves (e : Entry.t) : nat :=
  (if isLeaf e then 1 else 0)
  + sum_list ((λ kc, leaves (snd kc)) <$> Entry.Dir e).

(** [shuffled e e']: [e'] is [e] with the bindings of the maps stored
    in another order, at any depth. *)
Inductive shuffled : Entry.t → Entry.t → Prop :=
| shuffled_mk name node config key type dir dir' dir'' :
    dir ≡ₚ dir' →
    Forall2 (λ kc kc', fst kc = fst kc' ∧ shuffled (snd kc) (snd kc')) dir' dir'' →
    shuffled (Entry.mk name node config key type dir)
             (Entry.mk name node config key type dir'').

(** The chains of nodes from [e] down to each leaf under it, in the
    order in which the walker meets the leaves. *)
Fixpoint chains (e : Entry.t) : list (list Entry.t) :=
  let sub := (λ kc, (fst kc, chains (snd kc))) <$> Entry.Dir e in
  (if isLeaf e then [[e]] else [])
  ++ (cons e <$> mjoin (omap (λ k, lookup_dir k sub)
                             (sort_Strings (fst <$> Entry.Dir e)))).

(** A node declares a config-state when it is a container, a list, a
    leaf-list or a leaf and its state is set. *)
Definition declares (e : Entry.t) : bool :=
  match Entry.Node_ e with
  | ContainerNode | ListNode | LeafListNode | LeafNode _ =>
      bool_decide (Entry.Config e ≠ TSUnset)
  | ModuleNode | OtherNode => false
  end.

(** The state declared by the nearest declaring node of [up], a leaf
    followed by its ancestors from the parent to the root; [init] if no
    node declares one. *)
Fixpoint nearest (init : TriState) (up : list Entry.t) : TriState :=
  match up with
  | [] => init
  | e :: up' => if declares e then Entry.Config e else nearest init up'
  end.

(** *** Path segments and type strings *)

(** [strings.Index s sep]: where the first instance of [sep] in [s]
    starts, if there is one. *)
Fixpoint Index (s sep : string) : option nat :=
  if GoStrings.HasPrefix s sep then Some 0%nat
  else match s with
       | EmptyString => None
       | String _ s' => S <$> Index s' sep
       end.

(** The key names of a list: the pieces of its key between single
    spaces, and none for a list without key. *)
Definition keyNames (e : Entry.t) : list string :=
  if decide (Entry.Key e = "") then [] else GoStrings.Split (Entry.Key e) " ".

(** A key name: not empty, and without a space. *)
Definition keyName (k : string) : Prop := k ≠ "" ∧ Index k " " = None.

(** The segments of a list called [name] with the key names [keys],
    [decorate] being the decoration of key elements. *)
Definition xpathSegment (decorate : string → string) (name : string)
    (keys : list string) : string :=
  "/" +:+ name +:+ foldr (λ k rest, decorate ("[" +:+ k +:+ "=*]") +:+ rest) "" keys.

Definition restconfSegment (decorate : string → string) (name : string)
    (keys : list string) : string :=
  "/" +:+ name +:+ "="
  +:+ match keys with [] => "" | _ => decorate (GoStrings.Join keys ",") end.

(** A member of a union as rendered in a type string: [identityref->]
    and the base for a member with an identity base; else, for an
    enumeration, [enumeration] and the names, each between double
    quotes, separated by spaces, between square brackets; else the
    name of the member. *)
Definition renderMember (ut : Type_.t) : string :=
  match Type_.IdentityBase ut with
  | Some base => "identityref->" +:+ base
  | None =>
      match YangType.Kind (Type_.YangType ut) with
      | Yenum =>
          "enumeration["
          +:+ GoStrings.Join (GoFmt.QuoteToASCII <$> YangType.Enum_Names (Type_.YangType ut)) " "
          +:+ "]"
      | _ => Type_.Name ut
      end
  end.

(** *** Template variables *)

(** [var] is [k], the separator, and [val], the separator in the
    middle being the first one of [var]. *)
Definition firstSeparator (var k val : string) : Prop :=
  var = k +:+ ":::" +:+ val ∧ Index var ":::" = Some (String.length k).

(** The message logged for a variable that is ignored. *)
Definition ignoring (var : string) : Event :=
  LogPrintf ("ignoring variable " +:+ var).

(** The bindings [m'] and the ignored variables that [vars] leave,
    starting from the bindings [m]. *)
Inductive bindings : list string → gmap string string
                     → gmap string string → list string → Prop :=
| bindings_nil m : bindings [] m m []
| bindings_bind var k val vars m m' ignored :
    firstSeparator var k val →
    bindings vars (<[ k := val ]> m) m' ignored →
    bindings (var :: vars) m m' ignored
| bindings_ignore var vars m m' ignored :
    Index var ":::" = None →
    bindings vars m m' ignored →
    bindings (var :: vars) m m' (var :: ignored).

(** *** The records by the chains of their leaves *)

(** The accumulator after the nodes of [chain], visited from [p] on. *)
Definition along (keyColor typeColor : color.Color) (termcolor : bool)
    (p : Path.t) (chain : list Entry.t) : Path.t :=
  foldl (λ p e, (visit keyColor typeColor e p [] termcolor).1) p chain.

(** The strings of a list, one after the other. *)
Definition concat (l : list string) : string := foldr String.append "" l.

(** What a node adds to the XPath and to the RESTCONF path: a
    container and a leaf their name, a list its segment, any other node
    nothing. *)
Definition xpathStep (decorate : string → string) (e : Entry.t) : string :=
  match Entry.Node_ e with
  | ContainerNode | LeafNode _ => "/" +:+ Entry.Name e
  | ListNode => xpathSegment decorate (Entry.Name e) (keyNames e)
  | ModuleNode | LeafListNode | OtherNode => ""
  end.

Definition restconfStep (decorate : string → string) (e : Entry.t) : string :=
  match Entry.Node_ e with
  | ContainerNode | LeafNode _ => "/" +:+ Entry.Name e
  | ListNode => restconfSegment decorate (Entry.Name e) (keyNames e)
  | ModuleNode | LeafListNode | OtherNode => ""
  end.

(** The name of the nearest module node of [up], a leaf followed by its
    ancestors; [init] if there is none. *)
Fixpoint moduleName (init : string) (up : list Entry.t) : string :=
  match up with
  | [] => init
  | e :: up' =>
      match Entry.Node_ e with
      | ModuleNode => Entry.Name e
      | _ => moduleName init up'
      end
  end.

(** How many times the byte [c] occurs in [s]. *)
Fixpoint countByte (c : ascii) (s : string) : nat :=
  match s with
  | EmptyString => 0
  | String c' s' => (if decide (c' = c) then 1 else 0) + countByte c s'
  end.

(** A string of printable ASCII bytes, 0x20 to 0x7E. *)
Fixpoint printable (s : string) : bool :=
  match s with
  | EmptyString => true
  | String c s' =>
      (0x20 <=? N_of_ascii c) && (N_of_ascii c <=? 0x7E) && printable s'
  end.

(** The records that have a type. *)
Definition typed (p : Path.t) : Prop := is_Some (Path.Type_ p).

End Spec.

(** ** Sample inputs *)
Module Sample.
Import yang.
Import path.

(** A record with the given XPath and config-state. *)
Definition record (xpath : string) (c : TriState) : Path.t :=
  Path.mk "m" None xpath xpath "string" c.

Definition records : list Path.t :=
  [record "/a" TSTrue; record "/b" TSFalse; record "/c" TSUnset].

(** Text output of the XPath alone, under the given node filter. *)
Definition only (filter : string) : viper.t :=
  viper.mk "text" "xpath" "no" false filter "no" "" [] true.

(** The defaults of the flags, colours off. *)
Definition defaults : viper.t :=
  viper.mk "text" "xpath" "no" true "all" "detailed" "" [] true.

(** Types: a string, and a union of an identity reference based on
    [Foo] and of an enumeration with the names [A] and [B]. *)
Definition no_type : YangType.t := YangType.mk Ynone "" [].
Definition string_type : Type_.t :=
  Type_.mk "string" None (YangType.mk Ystring "" []) [].
Definition union_type : Type_.t :=
  Type_.mk "union" None (YangType.mk Yunion "" [])
    [ Type_.mk "identityref" (Some "Foo") (YangType.mk Yidentityref "" []) [];
      Type_.mk "enumeration" None (YangType.mk Yenum "" ["A"; "B"]) [] ].

Definition leaf (name : string) (config : TriState) : Entry.t :=
  Entry.mk name (LeafNode string_type) config "" (YangType.mk Ystring "" []) [].

Definition union_leaf : Entry.t :=
  Entry.mk "u" (LeafNode union_type) TSUnset "" (YangType.mk Yunion "" []) [].

(** A list with two keys, its bindings stored out of order, and a list
    without keys. *)
Definition listname : Entry.t :=
  Entry.mk "listname" ListNode TSUnset "id index" no_type
    [ ("index", leaf "index" TSUnset);
      ("state", leaf "state" TSFalse);
      ("id", leaf "id" TSUnset) ].

Definition keyless : Entry.t :=
  Entry.mk "listname" ListNode TSUnset "" no_type [("x", leaf "x" TSUnset)].

(** The same list with its bindings stored in another order. *)
Definition listname' : Entry.t :=
  Entry.mk "listname" ListNode TSUnset "id index" no_type
    [ ("id", leaf "id" TSUnset);
      ("index", leaf "index" TSUnset);
      ("state", leaf "state" TSFalse) ].

(** A module with a read-write container that holds the list and the
    union leaf, and a choice whose leaf-list and leaf follow it. *)
Definition tree : Entry.t :=
  Entry.mk "m" ModuleNode TSUnset "" no_type
    [ ("top",
       Entry.mk "top" ContainerNode TSTrue "" no_type
         [ ("u", union_leaf); ("listname", listname) ]);
      ("alt",
       Entry.mk "alt" OtherNode TSFalse "" no_type
         [ ("ll", Entry.mk "ll" LeafListNode TSUnset "" (YangType.mk Ystring "" []) []);
           ("z", leaf "z" TSUnset) ]) ].

Definition tree' : Entry.t :=
  Entry.mk "m" ModuleNode TSUnset "" no_type
    [ ("alt",
       Entry.mk "alt" OtherNode TSFalse "" no_type
         [ ("ll", Entry.mk "ll" LeafListNode TSUnset "" (YangType.mk Ystring "" []) []);
           ("z", leaf "z" TSUnset) ]);
      ("top",
       Entry.mk "top" ContainerNode TSTrue "" no_type
         [ ("u", union_leaf); ("listname", listname') ]) ].

(** A file system with one template file, and an engine that accepts
    every body and prints it as it is. *)
Definition template_file : string := "/etc/yangform/table.tmpl".

Definition readFile (filename : string) : Res string :=
  if decide (filename = template_file) then Ok "<p>{{.Vars.foo}}</p>"
  else Err "open: no such file or directory".

Definition Parse (body : string) : Res string := Ok body.

Definition Execute (tmpl : string) (input : templateIntput) : string * option error :=
  (tmpl, None).

(** HTML output with the template file above. *)
Definition html : viper.t :=
  viper.mk "html" "xpath" "no" true "all" "detailed" template_file
           ["foo:::bar:::baz"; "oops"] true.

(** The same, the template file missing, and an engine that rejects
    every body. *)
Definition html_missing : viper.t :=
  viper.mk "html" "xpath" "no" true "all" "detailed" "missing.tmpl" [] true.

Definition ParseFail (body : string) : Res string :=
  Err "template: unexpected EOF".

(** The modules read for [-m foo.yang] when the module has a revision:
    the module under its name and under its name with the revision. *)
Definition modules : list (string * Module_.t) :=
  [ ("foo@2020-01-01", Module_.mk "foo"); ("foo", Module_.mk "foo") ].

End Sample.

(** * Properties *)

Import yang.
Import path.

Example Split_space : GoStrings.Split "id index" " " = ["id"; "index"].
Proof. reflexivity. Qed.

Example Split_colons :
  GoStrings.Split "foo:::bar:::baz" ":::" = ["foo"; "bar"; "baz"].
Proof. reflexivity. Qed.

Example Split_overlap : GoStrings.Split "a::::b" ":::" = ["a"; ":b"].
Proof. reflexivity. Qed.

Example SprintfPlusQ_names :
  GoFmt.SprintfPlusQ ["A"; "B"]
  = "[" +:+ dquote +:+ "A" +:+ dquote +:+ " " +:+ dquote +:+ "B" +:+ dquote +:+ "]".
Proof. reflexivity. Qed.

(** The sample tree: five leaves, [/z] first because [alt] sorts before
    [top]; the state set on the choice [alt] does not reach [/z]. *)
Example Paths_tree :
  (λ p, (Path.XPath p, Path.RestConfPath p, Path.Config p))
    <$> Paths color.Bold color.Faint Sample.tree Path.zero [] false
  = [ ("/z", "/z", TSUnset);
      ("/top/listname[id=*][index=*]/id", "/top/listname=id,index/id", TSTrue);
      ("/top/listname[id=*][index=*]/index", "/top/listname=id,index/index", TSTrue);
      ("/top/listname[id=*][index=*]/state", "/top/listname=id,index/state", TSFalse);
      ("/top/u", "/top/u", TSTrue) ].
Proof. reflexivity. Qed.

(** With colours on every key element is wrapped in the bold escape
    sequences. *)
Example visit_listname_colours :
  Path.XPath (visit color.Bold color.Faint Sample.listname Path.zero [] true).1
  = "/listname"
    +:+ color.escape +:+ "[1m[id=*]" +:+ color.escape +:+ "[0m"
    +:+ color.escape +:+ "[1m[index=*]" +:+ color.escape +:+ "[0m".
Proof. reflexivity. Qed.

(** The walk with the records kept by address: of the ten cells, one
    per node, the records are the five cells of the leaves. *)
Example PathsAt_tree :
  (PathsAt color.Bold color.Faint Sample.tree Path.zero [] [] false).2
  = [3; 6; 7; 8; 9]%nat.
Proof. reflexivity. Qed.


(** ** Strings *)

Lemma append_nil_l (s : string) : "" +:+ s = s.
Proof. reflexivity. Qed.

Lemma append_cons (c : ascii) (s t : string) :
  String c s +:+ t = String c (s +:+ t).
Proof. reflexivity. Qed.

Lemma append_nil_r (s : string) : s +:+ "" = s.
Proof. induction s as [|c s IH]; [done|]. by rewrite append_cons, IH. Qed.

Lemma append_assoc (s t u : string) : (s +:+ t) +:+ u = s +:+ t +:+ u.
Proof. induction s as [|c s IH]; [done|]. by rewrite !append_cons, IH. Qed.

Lemma length_append (s t : string) :
  String.length (s +:+ t) = (String.length s + String.length t)%nat.
Proof. induction s as [|c s IH]; [done|]. rewrite append_cons. simpl. by rewrite IH. Qed.

(** ** [strings.Split] and [strings.Join] *)

Section Split.

Implicit Types (s sep k val : string) (a c : ascii).

Lemma HasPrefix_app sep s : GoStrings.HasPrefix (sep +:+ s) sep = true.
Proof.
  induction sep as [|a sep IH]; [done|]. rewrite append_cons. simpl.
  by rewrite decide_True.
Qed.

Lemma HasPrefix_true s sep :
  GoStrings.HasPrefix s sep = true → ∃ rest, s = sep +:+ rest.
Proof.
  revert s. induction sep as [|a sep IH]; intros s; [by exists s|].
  destruct s as [|c s]; [done|]. simpl. case_decide; [|done]. subst.
  intros [rest ->]%IH. by exists rest.
Qed.

Lemma splitFrom_skip sep (x s : string) :
  GoStrings.splitFrom sep (String.length x) (x +:+ s) = GoStrings.splitFrom sep 0 s.
Proof.
  induction x as [|c x IH]; [done|]. rewrite append_cons. exact IH.
Qed.

(** At a separator the piece being read ends and the next one starts
    after the separator. *)
Lemma splitFrom_sep a sep s :
  GoStrings.splitFrom (String a sep) 0 (String a sep +:+ s)
  = ("", (GoStrings.splitFrom (String a sep) 0 s).1
         :: (GoStrings.splitFrom (String a sep) 0 s).2).
Proof.
  pose proof (HasPrefix_app (String a sep) s) as Hp.
  rewrite append_cons in *. cbn [GoStrings.splitFrom]. rewrite Hp.
  cbn [String.length]. rewrite Nat.sub_succ, Nat.sub_0_r, splitFrom_skip.
  by destruct (GoStrings.splitFrom (String a sep) 0 s).
Qed.

Lemma splitFrom_other sep c s :
  GoStrings.HasPrefix (String c s) sep = false →
  GoStrings.splitFrom sep 0 (String c s)
  = (String c (GoStrings.splitFrom sep 0 s).1, (GoStrings.splitFrom sep 0 s).2).
Proof.
  intros Hp. cbn [GoStrings.splitFrom]. rewrite Hp.
  by destruct (GoStrings.splitFrom sep 0 s).
Qed.

Lemma Index_cons_Some s sep c (i : nat) :
  Spec.Index (String c s) sep = Some (S i) →
  GoStrings.HasPrefix (String c s) sep = false ∧ Spec.Index s sep = Some i.
Proof.
  cbn [Spec.Index]. destruct (GoStrings.HasPrefix (String c s) sep); [done|].
  destruct (Spec.Index s sep); naive_solver.
Qed.

Lemma Index_cons_None s sep c :
  Spec.Index (String c s) sep = None →
  GoStrings.HasPrefix (String c s) sep = false ∧ Spec.Index s sep = None.
Proof.
  cbn [Spec.Index]. destruct (GoStrings.HasPrefix (String c s) sep); [done|].
  by destruct (Spec.Index s sep).
Qed.

(** A string without the separator is one piece. *)
Lemma splitFrom_None s sep :
  Spec.Index s sep = None → GoStrings.splitFrom sep 0 s = (s, []).
Proof.
  induction s as [|c s IH]; [done|].
  intros [Hp Hs]%Index_cons_None. by rewrite splitFrom_other, IH.
Qed.

(** Up to its first separator a string is one piece, and the other
    pieces are those of what follows the separator. *)
Lemma splitFrom_first a sep k val :
  Spec.Index (k +:+ String a sep +:+ val) (String a sep) = Some (String.length k) →
  GoStrings.splitFrom (String a sep) 0 (k +:+ String a sep +:+ val)
  = (k, (GoStrings.splitFrom (String a sep) 0 val).1
        :: (GoStrings.splitFrom (String a sep) 0 val).2).
Proof.
  induction k as [|c k IH].
  - intros _. rewrite append_nil_l. apply splitFrom_sep.
  - rewrite append_cons. cbn [String.length].
    intros [Hp Hk]%Index_cons_Some. by rewrite splitFrom_other, IH.
Qed.

(** Joining the pieces of a string gives the string back. *)
Lemma Join_cons (x : string) (l : list string) sep :
  GoStrings.Join (x :: l) sep
  = x +:+ match l with [] => "" | _ => sep +:+ GoStrings.Join l sep end.
Proof. destruct l; [by rewrite append_nil_r | done]. Qed.

Lemma Join_splitFrom a sep s :
  GoStrings.Join ((GoStrings.splitFrom (String a sep) 0 s).1
                  :: (GoStrings.splitFrom (String a sep) 0 s).2) (String a sep)
  = s.
Proof.
  remember (String.length s) as n eqn:Hn. revert s Hn.
  induction n as [n IH] using lt_wf_ind. intros s ->.
  destruct s as [|c s]; [done|].
  destruct (GoStrings.HasPrefix (String c s) (String a sep)) eqn:Hp.
  - apply HasPrefix_true in Hp as [rest Hrest]. rewrite Hrest, splitFrom_sep.
    cbn [fst snd]. rewrite Join_cons, append_nil_l. f_equal.
    apply (IH (String.length rest)); [|done].
    rewrite Hrest, length_append. simpl. lia.
  - rewrite splitFrom_other by done. cbn [fst snd].
    rewrite Join_cons, append_cons, <- Join_cons. f_equal.
    apply (IH (String.length s)); [simpl; lia | done].
Qed.

Lemma Index_Some_split s sep (i : nat) :
  Spec.Index s sep = Some i →
  ∃ k val, s = k +:+ sep +:+ val ∧ String.length k = i.
Proof.
  revert i. induction s as [|c s IH]; intros i.
  - cbn [Spec.Index]. destruct (GoStrings.HasPrefix "" sep) eqn:Hp; [|done].
    intros [= <-]. apply HasPrefix_true in Hp as [rest ->]. by exists "", rest.
  - destruct (GoStrings.HasPrefix (String c s) sep) eqn:Hp.
    + cbn [Spec.Index]. rewrite Hp. intros [= <-].
      apply HasPrefix_true in Hp as [rest ->]. by exists "", rest.
    + destruct i as [|i]; [cbn [Spec.Index]; rewrite Hp;
                           by destruct (Spec.Index s sep)|].
      intros [_ (k & val & -> & <-)%IH]%Index_cons_Some.
      by exists (String c k), val.
Qed.

(** No instance of the separator starts before the index found. *)
Lemma Index_first s sep (i : nat) k val :
  Spec.Index s sep = Some i → s = k +:+ sep +:+ val → (i ≤ String.length k)%nat.
Proof.
  revert i k. induction s as [|c s IH]; intros i k Hi Hs.
  - cbn [Spec.Index] in Hi.
    destruct (GoStrings.HasPrefix "" sep); simplify_eq/=. lia.
  - destruct i as [|i]; [lia|].
    apply Index_cons_Some in Hi as [Hp Hi]. destruct k as [|c' k].
    + rewrite Hs, append_nil_l, HasPrefix_app in Hp. done.
    + rewrite append_cons in Hs. simplify_eq. cbn [String.length].
      apply le_n_S. by eapply IH.
Qed.

(** A key name is followed by the first space of what it starts. *)
Lemma Index_space k val :
  Spec.Index k " " = None →
  Spec.Index (k +:+ " " +:+ val) " " = Some (String.length k).
Proof.
  induction k as [|c k IH]; [done|].
  intros [Hp Hk]%Index_cons_None. rewrite append_cons.
  cbn [Spec.Index String.length]. rewrite (IH Hk).
  assert (GoStrings.HasPrefix (String c (k +:+ " " +:+ val)) " " = false) as ->
    by exact Hp.
  done.
Qed.

(** The key names of a list are the pieces of its key. *)
Lemma Split_Join_keys (keys : list string) :
  keys ≠ [] → Forall Spec.keyName keys →
  GoStrings.Split (GoStrings.Join keys " ") " " = keys.
Proof.
  intros Hne Hkeys. unfold GoStrings.Split.
  induction Hkeys as [|k keys [_ Hk] Hkeys IH]; [done|].
  destruct keys as [|k' keys].
  - cbn [GoStrings.Join]. by rewrite splitFrom_None.
  - change (GoStrings.Join (k :: k' :: keys) " ")
      with (k +:+ " " +:+ GoStrings.Join (k' :: keys) " ").
    rewrite splitFrom_first by by apply Index_space.
    specialize (IH ltac:(done)).
    destruct (GoStrings.splitFrom " " 0 (GoStrings.Join (k' :: keys) " ")).
    by simplify_eq/=.
Qed.

End Split.

(** ** The schema tree and the shape of the walk *)

(** Induction on a schema tree, the property assumed on the entries
    bound in [Dir]. *)
Lemma Entry_ind_dir (P : Entry.t → Prop) :
  (∀ e, Forall (λ kc, P (snd kc)) (Entry.Dir e) → P e) → ∀ e, P e.
Proof.
  intros H. fix IH 1. intros e. apply H.
  destruct e as [name node config key type dir]. simpl.
  induction dir as [|[k c] dir IHdir]; constructor; [apply IH | apply IHdir].
Qed.

Lemma lookup_dir_fmap {A B} (f : A → B) (k : string) (dir : list (string * A)) :
  lookup_dir k ((λ kc, (fst kc, f (snd kc))) <$> dir) = f <$> lookup_dir k dir.
Proof.
  induction dir as [|[k' c] dir IH]; [done|]. simpl. by case_decide.
Qed.

Lemma lookup_dir_Some {A} (k : string) (dir : list (string * A)) (c : A) :
  lookup_dir k dir = Some c → (k, c) ∈ dir.
Proof.
  induction dir as [|[k' c'] dir IH]; [done|]. simpl. case_decide.
  - intros [= ->]. subst. left.
  - intros. right. auto.
Qed.

Lemma lookup_dir_key {A} (k : string) (dir : list (string * A)) :
  k ∈ fst <$> dir → is_Some (lookup_dir k dir).
Proof.
  induction dir as [|[k' c'] dir IH]; simpl.
  - by intros ?%elem_of_nil.
  - intros [->|Hin]%elem_of_cons; case_decide; try done; eauto.
Qed.

Lemma lookup_dir_NoDup {A} (k : string) (c : A) (dir : list (string * A)) :
  NoDup (fst <$> dir) → (k, c) ∈ dir → lookup_dir k dir = Some c.
Proof.
  induction dir as [|[k' c'] dir IH]; simpl.
  - by intros _ ?%elem_of_nil.
  - intros [Hk' Hnd]%NoDup_cons [[= -> ->]|Hin]%elem_of_cons.
    + by rewrite decide_True.
    + rewrite decide_False; [by apply IH|].
      intros ->. apply Hk'. apply list_elem_of_fmap. by exists (k, c).
Qed.

Lemma sortedDir_elem_of (e : Entry.t) (kc : string * Entry.t) :
  kc ∈ Spec.sortedDir e → kc ∈ Entry.Dir e.
Proof.
  unfold Spec.sortedDir. intros (k & _ & Hk)%list_elem_of_omap.
  destruct (lookup_dir k (Entry.Dir e)) as [c|] eqn:Hc; simplify_eq/=.
  by apply lookup_dir_Some.
Qed.

Lemma children_Forall (P : Entry.t → Prop) (e : Entry.t) :
  Forall (λ kc, P (snd kc)) (Entry.Dir e) → Forall P (Spec.children e).
Proof.
  intros H. unfold Spec.children. apply Forall_fmap, Forall_forall.
  intros kc Hkc%sortedDir_elem_of. by eapply Forall_forall in H.
Qed.

(** The keys of the bindings visited are the sorted keys of [Dir]. *)
Lemma sortedDir_keys (e : Entry.t) :
  fst <$> Spec.sortedDir e = sort_Strings (fst <$> Entry.Dir e).
Proof.
  unfold Spec.sortedDir.
  assert (∀ ks, Forall (λ k, k ∈ fst <$> Entry.Dir e) ks →
    fst <$> omap (λ k, pair k <$> lookup_dir k (Entry.Dir e)) ks = ks) as Hks.
  { induction 1 as [|k ks Hk _ IH]; [done|]. csimpl.
    destruct (lookup_dir_key k _ Hk) as [c ->]. csimpl. by rewrite IH. }
  apply Hks, Forall_forall. intros k Hk.
  unfold sort_Strings in Hk. by rewrite merge_sort_Permutation in Hk.
Qed.

Lemma sortedDir_Sorted (e : Entry.t) :
  StronglySorted String.le (fst <$> Spec.sortedDir e).
Proof. rewrite sortedDir_keys. apply StronglySorted_merge_sort; apply _. Qed.

(** Sorting forgets the order of what is sorted. *)
Lemma sort_Strings_Permutation (l1 l2 : list string) :
  l1 ≡ₚ l2 → sort_Strings l1 = sort_Strings l2.
Proof.
  intros Hl. unfold sort_Strings.
  apply (StronglySorted_unique String.le).
  - apply StronglySorted_merge_sort; apply _.
  - apply StronglySorted_merge_sort; apply _.
  - by rewrite !merge_sort_Permutation.
Qed.

(** The sorted list is the only sorted arrangement of the strings: any
    sorting algorithm returns it. *)
Lemma sort_Strings_unique (l sorted : list string) :
  sorted ≡ₚ l → StronglySorted String.le sorted → sorted = sort_Strings l.
Proof.
  intros Hperm Hsorted. apply (StronglySorted_unique String.le); [done| |].
  - apply StronglySorted_merge_sort; apply _.
  - unfold sort_Strings. by rewrite merge_sort_Permutation.
Qed.

(** With distinct keys, the bindings visited are those of [Dir]. *)
Lemma omap_lookup_dir_self {A} (dir : list (string * A)) :
  NoDup (fst <$> dir) →
  omap (λ k, pair k <$> lookup_dir k dir) (fst <$> dir) = dir.
Proof.
  intros Hnd.
  assert (∀ l, l ⊆ dir →
    omap (λ k, pair k <$> lookup_dir k dir) (fst <$> l) = l) as Hl.
  { induction l as [|[k c] l IH]; [done|]. intros Hsub. csimpl.
    rewrite (lookup_dir_NoDup k c) by (done || (apply Hsub; left)). csimpl.
    f_equal. apply IH. intros x Hx. apply Hsub. by right. }
  by apply Hl.
Qed.

Lemma sortedDir_Permutation (e : Entry.t) :
  NoDup (fst <$> Entry.Dir e) → Spec.sortedDir e ≡ₚ Entry.Dir e.
Proof.
  intros Hnd. unfold Spec.sortedDir, sort_Strings.
  rewrite merge_sort_Permutation. by rewrite omap_lookup_dir_self.
Qed.

Lemma wf_unfold (e : Entry.t) :
  Spec.wf e = true ↔
  NoDup (fst <$> Entry.Dir e) ∧ Forall (λ kc, Spec.wf (snd kc) = true) (Entry.Dir e).
Proof.
  destruct e as [name node config key type dir]. simpl.
  rewrite andb_true_iff, bool_decide_eq_true, forallb_forall, Forall_forall.
  split; intros [? H]; (split; [done|]); intros x Hx; apply H;
    by apply list_elem_of_In.
Qed.

Section Walk.

Context (keyColor typeColor : color.Color).

Abbreviation Paths := (path.Paths keyColor typeColor).
Abbreviation visit := (path.visit keyColor typeColor).
Abbreviation PathsAt := (path.PathsAt keyColor typeColor).
Abbreviation visitAt := (path.visitAt keyColor typeColor).

Implicit Types (e : Entry.t) (p : Path.t) (ps : list Path.t) (tc : bool).

Lemma foldl_walk (G : Entry.t → Path.t → list Path.t → bool → list Path.t)
    (dir : list (string * Entry.t)) p tc (ks : list string) ps :
  foldl (λ ps k,
           match lookup_dir k ((λ kc, (fst kc, G (snd kc))) <$> dir) with
           | Some Paths_k => Paths_k p ps tc
           | None => ps
           end) ps ks
  = foldl (λ ps kc, G (snd kc) p ps tc) ps
      (omap (λ k, pair k <$> lookup_dir k dir) ks).
Proof.
  revert ps. induction ks as [|k ks IH]; intros ps; [done|]. csimpl.
  rewrite lookup_dir_fmap. destruct (lookup_dir k dir) as [c|]; csimpl; apply IH.
Qed.

(** The walk of [e]: the node itself, then the entries of [Dir] by
    increasing key, each from the accumulator left by [e]. *)
Lemma Paths_unfold e p ps tc :
  Paths e p ps tc
  = foldl (λ ps' kc, Paths (snd kc) (visit e p ps tc).1 ps' tc)
          (visit e p ps tc).2 (Spec.sortedDir e).
Proof.
  destruct e as [name node config key type dir]. unfold Spec.sortedDir.
  cbn [path.Paths Entry.Dir]. destruct (visit _ p ps tc) as [p' ps'].
  cbn [fst snd]. apply foldl_walk.
Qed.

(** The accumulator after a node does not depend on the records
    collected, and the records grow by that accumulator on a leaf and
    by nothing on any other node. *)
Lemma visit_fst e p ps tc : (visit e p ps tc).1 = (visit e p [] tc).1.
Proof.
  unfold path.visit. destruct (Entry.Node_ e); try done.
  by destruct (keyElems keyColor (negb tc) e).
Qed.

Lemma visit_snd e p ps tc :
  (visit e p ps tc).2
  = ps ++ (if isLeaf e then [(visit e p [] tc).1] else []).
Proof.
  unfold path.visit, isLeaf.
  destruct (Entry.Node_ e); cbn [fst snd]; rewrite ?app_nil_r; try done.
  by destruct (keyElems keyColor (negb tc) e).
Qed.

Lemma foldl_Paths_app (l : list (string * Entry.t)) p tc :
  Forall (λ kc, ∀ p ps, Paths (snd kc) p ps tc = ps ++ Paths (snd kc) p [] tc) l →
  ∀ ps, foldl (λ ps' kc, Paths (snd kc) p ps' tc) ps l
        = ps ++ mjoin ((λ kc, Paths (snd kc) p [] tc) <$> l).
Proof.
  induction 1 as [|kc l Hkc _ IH]; intros ps; csimpl.
  - by rewrite app_nil_r.
  - rewrite IH, (Hkc p ps). by rewrite app_assoc.
Qed.

(** The walker only appends to the records it is given. *)
Lemma Paths_app e p ps tc : Paths e p ps tc = ps ++ Paths e p [] tc.
Proof.
  revert p ps. induction e as [e IH] using Entry_ind_dir. intros p ps.
  assert (Forall (λ kc, ∀ p ps, Paths (snd kc) p ps tc
                                = ps ++ Paths (snd kc) p [] tc)
                 (Spec.sortedDir e)) as Hsub.
  { apply Forall_forall. intros kc Hkc%sortedDir_elem_of.
    by eapply Forall_forall in IH. }
  rewrite !Paths_unfold, !(foldl_Paths_app _ _ _ Hsub).
  rewrite (visit_fst e p ps), (visit_snd e p ps), (visit_snd e p []).
  by rewrite app_nil_l, app_assoc.
Qed.

(** The records of a tree: the record of the root if it is a leaf, then
    the records of the subtrees by increasing key, each walked from the
    accumulator left by the root. *)
Lemma Paths_children e p tc :
  Paths e p [] tc
  = (if isLeaf e then [(visit e p [] tc).1] else [])
    ++ mjoin ((λ c, Paths c (visit e p [] tc).1 [] tc) <$> Spec.children e).
Proof.
  rewrite Paths_unfold, foldl_Paths_app.
  - rewrite visit_snd, app_nil_l. unfold Spec.children.
    by rewrite <- list_fmap_compose.
  - apply Forall_forall. intros kc _. intros. apply Paths_app.
Qed.

Lemma length_Paths e p tc :
  Spec.wf e = true → length (Paths e p [] tc) = Spec.leaves e.
Proof.
  revert p. induction e as [e IH] using Entry_ind_dir. intros p Hwf.
  apply wf_unfold in Hwf as [Hnd Hwf].
  rewrite Paths_children, length_app.
  assert (Spec.leaves e = ((if isLeaf e then 1 else 0)
            + sum_list ((λ kc, Spec.leaves (snd kc)) <$> Entry.Dir e))%nat) as ->.
  { by destruct e. }
  f_equal; [by destruct (isLeaf e)|].
  rewrite <- (sortedDir_Permutation e Hnd).
  assert (Forall (λ kc, ∀ p, length (Paths (snd kc) p [] tc) = Spec.leaves (snd kc))
                 (Spec.sortedDir e)) as Hsub.
  { apply Forall_forall. intros kc Hkc%sortedDir_elem_of p'.
    eapply Forall_forall in IH; [|done]. eapply Forall_forall in Hwf; [|done].
    by apply IH. }
  unfold Spec.children. generalize (visit e p [] tc).1. intros p'.
  induction Hsub as [|kc l Hkc _ IHl]; [done|]. csimpl.
  by rewrite length_app, Hkc, IHl.
Qed.

(** *** The order of the bindings does not matter *)

Lemma lookup_dir_None {A} (k : string) (dir : list (string * A)) :
  lookup_dir k dir = None → k ∉ fst <$> dir.
Proof.
  intros Hk Hin. apply lookup_dir_key in Hin as [c Hc]. congruence.
Qed.

Lemma lookup_dir_Permutation {A} (k : string) (dir dir' : list (string * A)) :
  NoDup (fst <$> dir) → dir ≡ₚ dir' → lookup_dir k dir = lookup_dir k dir'.
Proof.
  intros Hnd Hperm. destruct (lookup_dir k dir) as [c|] eqn:Hc.
  - symmetry. apply lookup_dir_NoDup.
    + by rewrite <- Hperm.
    + rewrite <- Hperm. by apply lookup_dir_Some.
  - apply lookup_dir_None in Hc.
    destruct (lookup_dir k dir') as [c'|] eqn:Hc'; [|done].
    destruct Hc. apply lookup_dir_Some in Hc'. rewrite <- Hperm in Hc'.
    apply list_elem_of_fmap. by exists (k, c').
Qed.

Lemma sortedDir_Permutation_eq name node config key type
    (dir dir' : list (string * Entry.t)) :
  NoDup (fst <$> dir) → dir ≡ₚ dir' →
  Spec.sortedDir (Entry.mk name node config key type dir)
  = Spec.sortedDir (Entry.mk name node config key type dir').
Proof.
  intros Hnd Hperm. unfold Spec.sortedDir. cbn [Entry.Dir].
  rewrite (sort_Strings_Permutation (fst <$> dir) (fst <$> dir'))
    by by rewrite Hperm.
  apply list_omap_ext. apply Forall2_same_length_lookup_2; [done|].
  intros i k k' Hk Hk'. simplify_eq.
  by rewrite (lookup_dir_Permutation k dir dir').
Qed.

Lemma sortedDir_Forall2 (R : Entry.t → Entry.t → Prop) name node config key type
    (dir dir' : list (string * Entry.t)) :
  Forall2 (λ kc kc', fst kc = fst kc' ∧ R (snd kc) (snd kc')) dir dir' →
  Forall2 (λ kc kc', fst kc = fst kc' ∧ R (snd kc) (snd kc'))
          (Spec.sortedDir (Entry.mk name node config key type dir))
          (Spec.sortedDir (Entry.mk name node config key type dir')).
Proof.
  intros HR. unfold Spec.sortedDir. cbn [Entry.Dir].
  assert (fst <$> dir = fst <$> dir') as <-.
  { induction HR as [|[k c] [k' c'] l l' [Hk _] _ IH]; [done|].
    csimpl in *. by rewrite Hk, IH. }
  assert (∀ k, option_Forall2 R (lookup_dir k dir) (lookup_dir k dir')) as Hlook.
  { intros k. induction HR as [|[k1 c] [k' c'] l l' [Hk Hc] _ IH];
      [constructor|]. simpl in *. subst k'.
    case_decide; [by constructor | done]. }
  induction (sort_Strings (fst <$> dir)) as [|k ks IH]; [constructor|].
  csimpl. destruct (Hlook k) as [c c' Hc|]; csimpl; [|done].
  constructor; [done | apply IH].
Qed.

Lemma foldl_Paths_Forall2 (l l' : list (string * Entry.t)) p tc :
  Forall2 (λ kc kc', ∀ p ps, Paths (snd kc') p ps tc = Paths (snd kc) p ps tc) l l' →
  ∀ ps, foldl (λ ps' kc, Paths (snd kc) p ps' tc) ps l'
        = foldl (λ ps' kc, Paths (snd kc) p ps' tc) ps l.
Proof.
  induction 1 as [|kc kc' l l' Hkc _ IH]; intros ps; [done|]. csimpl.
  by rewrite Hkc, IH.
Qed.

Lemma wf_shuffled e :
  Spec.wf e = true → ∀ e', Spec.shuffled e e' →
  ∀ p ps tc, Paths e' p ps tc = Paths e p ps tc.
Proof.
  induction e as [e IH] using Entry_ind_dir. intros Hwf e' Hsh p ps tc.
  apply wf_unfold in Hwf as [Hnd Hwf].
  inversion Hsh as [name node config key type dir dir' dir'' Hperm HF2]; subst.
  cbn [Entry.Dir] in *.
  rewrite !Paths_unfold.
  change (visit (Entry.mk name node config key type dir'') p ps tc)
    with (visit (Entry.mk name node config key type dir) p ps tc).
  rewrite (sortedDir_Permutation_eq _ _ _ _ _ dir dir') by done.
  apply foldl_Paths_Forall2.
  assert (Forall (λ kc, Spec.wf (snd kc) = true ∧
                        ∀ e', Spec.shuffled (snd kc) e' →
                              ∀ p ps tc, Paths e' p ps tc = Paths (snd kc) p ps tc)
                 dir') as Hdir'.
  { rewrite <- Hperm. apply Forall_forall. intros kc Hkc.
    eapply Forall_forall in IH; [|done]. eapply Forall_forall in Hwf; [|done].
    auto. }
  eapply Forall2_impl.
  - apply (sortedDir_Forall2
             (λ c c', ∀ p ps, Paths c' p ps tc = Paths c p ps tc)).
    clear -HF2 Hdir'.
    induction HF2 as [|kc kc' l l' [Hk Hsh] _ IHl]; [constructor|].
    apply Forall_cons in Hdir' as [[_ Hkc] Hdir'].
    constructor; [|by apply IHl]. split; [done|]. intros p ps. by apply Hkc.
  - cbn beta. by intros kc kc' [_ ?].
Qed.

(** *** The config-state along a chain *)

Lemma inheritConfig_Config e p :
  Path.Config (inheritConfig e p)
  = if bool_decide (Entry.Config e ≠ TSUnset) then Entry.Config e else Path.Config p.
Proof.
  unfold inheritConfig. case_decide as Hc.
  - by rewrite bool_decide_eq_false_2 by (by intros []).
  - by rewrite bool_decide_eq_true_2.
Qed.

Lemma visit_Config e p ps tc :
  Path.Config (visit e p ps tc).1
  = if Spec.declares e then Entry.Config e else Path.Config p.
Proof.
  unfold path.visit, Spec.declares.
  destruct (Entry.Node_ e); cbn [fst Path.Config Path.set_Module Path.set_XPath
    Path.set_RestConfPath Path.set_Type Path.set_SType];
    try done; try apply inheritConfig_Config.
  - rewrite <- inheritConfig_Config. unfold inheritConfig. by case_decide.
  - destruct (keyElems keyColor (negb tc) e). apply inheritConfig_Config.
Qed.

Lemma chains_unfold e :
  Spec.chains e
  = (if isLeaf e then [[e]] else [])
    ++ (cons e <$> mjoin (Spec.chains <$> Spec.children e)).
Proof.
  destruct e as [name node config key type dir].
  unfold Spec.children, Spec.sortedDir. cbn [Spec.chains Entry.Dir].
  do 3 f_equal.
  induction (sort_Strings (fst <$> dir)) as [|k ks IH]; [done|]. csimpl.
  rewrite lookup_dir_fmap. destruct (lookup_dir k dir) as [c|]; csimpl; by rewrite IH.
Qed.

Lemma nearest_app (init : TriState) (l1 l2 : list Entry.t) :
  Spec.nearest init (l1 ++ l2) = Spec.nearest (Spec.nearest init l2) l1.
Proof.
  induction l1 as [|e l1 IH]; [done|]. simpl. by destruct (Spec.declares e).
Qed.

Lemma Config_Paths e p tc :
  Path.Config <$> Paths e p [] tc
  = (λ chain, Spec.nearest (Path.Config p) (reverse chain)) <$> Spec.chains e.
Proof.
  revert p. induction e as [e IH] using Entry_ind_dir. intros p.
  apply (children_Forall (λ c, ∀ p, Path.Config <$> Paths c p [] tc
           = (λ chain, Spec.nearest (Path.Config p) (reverse chain))
             <$> Spec.chains c)) in IH.
  rewrite Paths_children, chains_unfold, !fmap_app. f_equal.
  - destruct (isLeaf e); [|done]. csimpl. by rewrite visit_Config.
  - rewrite <- list_fmap_compose.
    rewrite (list_fmap_ext _
               (λ chain, Spec.nearest (Path.Config (visit e p [] tc).1)
                           (reverse chain))).
    + generalize (visit e p [] tc).1. intros p'.
      induction IH as [|c cs Hc _ IHcs]; [done|]. csimpl.
      by rewrite !fmap_app, Hc, IHcs.
    + intros _ chain _. unfold compose. rewrite reverse_cons, nearest_app.
      simpl. by rewrite visit_Config.
Qed.

(** *** The records in memory are the records of [Paths] *)

Lemma foldl_walkAt
    (G : Entry.t → Path.t → list Path.t → list nat → bool → list Path.t * list nat)
    (dir : list (string * Entry.t)) (addr : nat) tc (ks : list string)
    (acc : list Path.t * list nat) :
  foldl (λ '(st, ps) k,
           match lookup_dir k ((λ kc, (fst kc, G (snd kc))) <$> dir) with
           | Some Paths_k => Paths_k (st !!! addr) st ps tc
           | None => (st, ps)
           end) acc ks
  = foldl (λ '(st, ps) kc, G (snd kc) (st !!! addr) st ps tc) acc
      (omap (λ k, pair k <$> lookup_dir k dir) ks).
Proof.
  revert acc. induction ks as [|k ks IH]; intros [st ps]; [done|]. csimpl.
  rewrite lookup_dir_fmap. destruct (lookup_dir k dir) as [c|]; csimpl; apply IH.
Qed.

Lemma PathsAt_unfold e p (st : list Path.t) (ps : list nat) tc :
  PathsAt e p st ps tc
  = foldl (λ '(st', ps') kc, PathsAt (snd kc) (st' !!! length st) st' ps' tc)
          (visitAt e (length st) (st ++ [p]) ps tc) (Spec.sortedDir e).
Proof.
  destruct e as [name node config key type dir]. unfold Spec.sortedDir.
  cbn [path.PathsAt Entry.Dir]. unfold path.visitAt. apply foldl_walkAt.
Qed.

(** The cell of the call holds the accumulator left by the node. *)
Lemma visitAt_own e p (st : list Path.t) (ps : list nat) tc :
  visitAt e (length st) (st ++ [p]) ps tc
  = (st ++ [(visit e p [] tc).1],
     ps ++ (if isLeaf e then [length st] else [])).
Proof.
  unfold path.visitAt. rewrite list_lookup_total_middle by done.
  rewrite insert_app_r_alt, Nat.sub_diag by done. cbn [insert list_insert].
  by destruct (isLeaf e); rewrite ?app_nil_r.
Qed.

Lemma foldl_PathsAt (l : list (string * Entry.t)) (addr : nat) p' tc :
  Forall (λ kc, ∀ p (st : list Path.t) (ps : list nat), ∃ new added,
            PathsAt (snd kc) p st ps tc = (st ++ new, ps ++ added)
            ∧ Forall2 (λ a r, (st ++ new) !! a = Some r) added
                      (Paths (snd kc) p [] tc)) l →
  ∀ (st : list Path.t) (ps : list nat), st !! addr = Some p' →
  ∃ new added,
    foldl (λ '(st', ps') kc, PathsAt (snd kc) (st' !!! addr) st' ps' tc) (st, ps) l
    = (st ++ new, ps ++ added)
    ∧ Forall2 (λ a r, (st ++ new) !! a = Some r) added
              (mjoin ((λ kc, Paths (snd kc) p' [] tc) <$> l)).
Proof.
  induction 1 as [|kc l Hkc _ IH]; intros st ps Hcell.
  - exists [], []. rewrite !app_nil_r. split; [done | constructor].
  - csimpl. rewrite (list_lookup_total_correct _ _ _ Hcell).
    destruct (Hkc p' st ps) as (n1 & a1 & -> & H1).
    destruct (IH (st ++ n1) (ps ++ a1)) as (n2 & a2 & -> & H2).
    { by apply lookup_app_l_Some. }
    exists (n1 ++ n2), (a1 ++ a2). rewrite !app_assoc. split; [done|].
    apply Forall2_app; [|done].
    eapply Forall2_impl; [done|]. cbn beta. intros a r Ha.
    by apply lookup_app_l_Some.
Qed.

Lemma PathsAt_Paths e tc :
  ∀ p (st : list Path.t) (ps : list nat), ∃ new added,
    PathsAt e p st ps tc = (st ++ new, ps ++ added)
    ∧ Forall2 (λ a r, (st ++ new) !! a = Some r) added (Paths e p [] tc).
Proof.
  induction e as [e IH] using Entry_ind_dir. intros p st ps.
  rewrite PathsAt_unfold, visitAt_own, Paths_children.
  set (p' := (visit e p [] tc).1).
  destruct (foldl_PathsAt (Spec.sortedDir e) (length st) p' tc) with
    (st := st ++ [p']) (ps := ps ++ (if isLeaf e then [length st] else []))
    as (new & added & -> & Hadded).
  { apply Forall_forall. intros kc Hkc%sortedDir_elem_of.
    by eapply Forall_forall in IH. }
  { by apply list_lookup_middle. }
  exists ([p'] ++ new), ((if isLeaf e then [length st] else []) ++ added).
  rewrite !app_assoc. split; [done|].
  apply Forall2_app.
  - destruct (isLeaf e); constructor; [|constructor].
    apply lookup_app_l_Some. by apply list_lookup_middle.
  - unfold Spec.children. by rewrite <- list_fmap_compose.
Qed.

End Walk.

(** C4: on a well-formed schema tree the walker appends one record per
    leaf node of the tree, so that the records are as many as the leaf
    nodes; the node itself adds a record when it is a leaf, and no
    record when it is a module, a container, a list, a leaf-list or any
    other node. *)
Theorem C4_one_record_per_leaf (keyColor typeColor : color.Color)
    (e : Entry.t) (p : Path.t) (ps : list Path.t) (termcolor : bool) :
  Spec.wf e = true →
  length (Paths keyColor typeColor e p ps termcolor) = (length ps + Spec.leaves e)%nat
  ∧ match Entry.Node_ e with
    | LeafNode _ =>
        ∃ record, (visit keyColor typeColor e p ps termcolor).2 = ps ++ [record]
    | ModuleNode | ContainerNode | ListNode | LeafListNode | OtherNode =>
        (visit keyColor typeColor e p ps termcolor).2 = ps
    end.
Proof.
  intros Hwf. split.
  - by rewrite Paths_app, length_app, length_Paths.
  - rewrite visit_snd. unfold isLeaf.
    destruct (Entry.Node_ e); rewrite ?app_nil_r; eauto.
Qed.

Lemma C4_one_record_per_leaf_witness :
  length (Paths color.Bold color.Faint Sample.tree Path.zero [] true) = (0 + 5)%nat
  ∧ (visit color.Bold color.Faint Sample.tree Path.zero [] true).2 = [].
Proof.
  apply (C4_one_record_per_leaf color.Bold color.Faint Sample.tree Path.zero [] true).
  reflexivity.
Defined.

Lemma shuffled_refl (e : Entry.t) : Spec.shuffled e e.
Proof.
  induction e as [e IH] using Entry_ind_dir.
  destruct e as [name node config key type dir]. cbn [Entry.Dir] in IH.
  apply (Spec.shuffled_mk _ _ _ _ _ dir dir dir); [done|].
  induction IH; constructor; auto.
Qed.

Lemma shuffled_listname : Spec.shuffled Sample.listname Sample.listname'.
Proof.
  apply (Spec.shuffled_mk _ _ _ _ _ _ (Entry.Dir Sample.listname')).
  - symmetry.
    apply (Permutation_cons_append
             [("index", Sample.leaf "index" TSUnset);
              ("state", Sample.leaf "state" TSFalse)]).
  - repeat constructor; apply shuffled_refl.
Qed.

Lemma shuffled_tree : Spec.shuffled Sample.tree Sample.tree'.
Proof.
  eapply Spec.shuffled_mk; [apply perm_swap|].
  repeat constructor; [apply shuffled_refl|]. cbn [snd].
  eapply Spec.shuffled_mk; [reflexivity|].
  repeat constructor; [apply shuffled_refl | apply shuffled_listname].
Qed.

(** C5: on a well-formed schema tree the walker visits the entries
    bound in [Dir] by increasing key (their names, compared byte by
    byte), whatever the order in which the map stores them; hence the
    records, and their order, are the same for any two trees that
    differ only in the order in which the maps store their bindings. *)
Theorem C5_children_by_increasing_name (keyColor typeColor : color.Color)
    (e : Entry.t) (p : Path.t) (ps : list Path.t) (termcolor : bool) :
  Spec.wf e = true →
  (∃ visited : list (string * Entry.t),
     visited ≡ₚ Entry.Dir e
     ∧ StronglySorted String.le (fst <$> visited)
     ∧ Paths keyColor typeColor e p ps termcolor
       = foldl (λ ps' kc,
                  Paths keyColor typeColor (snd kc)
                    (visit keyColor typeColor e p ps termcolor).1 ps' termcolor)
               (visit keyColor typeColor e p ps termcolor).2 visited)
  ∧ (∀ e', Spec.shuffled e e' →
           Paths keyColor typeColor e' p ps termcolor
           = Paths keyColor typeColor e p ps termcolor).
Proof.
  intros Hwf. split.
  - exists (Spec.sortedDir e). split; [|split].
    + apply sortedDir_Permutation. by apply wf_unfold in Hwf as [? _].
    + apply sortedDir_Sorted.
    + apply Paths_unfold.
  - intros e' Hsh. by apply wf_shuffled.
Qed.

Lemma C5_children_by_increasing_name_witness :
  Paths color.Bold color.Faint Sample.tree' Path.zero [] true
  = Paths color.Bold color.Faint Sample.tree Path.zero [] true.
Proof.
  apply (C5_children_by_increasing_name color.Bold color.Faint
           Sample.tree Path.zero [] true).
  - reflexivity.
  - apply shuffled_tree.
Defined.

(** C7: the config-state goes down the tree.  A node that is a
    container, a list, a leaf-list or a leaf and declares a state puts
    it in the accumulator handed to its subtree; any other node hands on
    the state it received.  So the record of a leaf carries the state
    declared by the nearest such node among the leaf and its ancestors,
    and the state of the accumulator the walk started from (unset, for
    [Path.zero]) when none declares one. *)
Theorem C7_config_inherited (keyColor typeColor : color.Color)
    (e : Entry.t) (p : Path.t) (ps : list Path.t) (termcolor : bool) :
  Path.Config (visit keyColor typeColor e p ps termcolor).1
  = (if Spec.declares e then Entry.Config e else Path.Config p)
  ∧ Path.Config <$> Paths keyColor typeColor e p ps termcolor
    = (Path.Config <$> ps)
      ++ ((λ chain, Spec.nearest (Path.Config p) (reverse chain)) <$> Spec.chains e).
Proof.
  split; [apply visit_Config|].
  by rewrite Paths_app, fmap_app, Config_Paths.
Qed.

(** C6: the accumulator of a call is a variable of that call.  With
    the variables in memory and the records kept by address, a walk
    leaves every cell that existed before it as it was, and the records
    it adds, read from memory once the walk is over, are the records
    of the walker that passes values; the walker adds to the records it
    is given and does not change them; and the records of a tree are
    the record of its root followed by the records of each subtree
    walked alone from the accumulator left by the root, so that the
    records of a subtree depend on nothing that the walk of a sibling
    did. *)
Theorem C6_accumulator_isolation (keyColor typeColor : color.Color)
    (e : Entry.t) (p : Path.t) (termcolor : bool)
    (st : list Path.t) (addrs : list nat) (ps : list Path.t) :
  (∃ new added,
     PathsAt keyColor typeColor e p st addrs termcolor = (st ++ new, addrs ++ added)
     ∧ Forall2 (λ a record, (st ++ new) !! a = Some record) added
               (Paths keyColor typeColor e p [] termcolor))
  ∧ Paths keyColor typeColor e p ps termcolor
    = ps ++ Paths keyColor typeColor e p [] termcolor
  ∧ Paths keyColor typeColor e p [] termcolor
    = (if isLeaf e then [(visit keyColor typeColor e p [] termcolor).1] else [])
      ++ mjoin ((λ c, Paths keyColor typeColor c
                        (visit keyColor typeColor e p [] termcolor).1 [] termcolor)
                <$> Spec.children e).
Proof.
  split; [apply PathsAt_Paths|]. split; [apply Paths_app | apply Paths_children].
Qed.

(** ** Path segments and type strings *)

Section Segments.

Context (keyColor typeColor : color.Color).

Implicit Types (e : Entry.t) (p : Path.t) (ps : list Path.t) (tc : bool).

Lemma foldl_append (f : string → string) (l : list string) (init : string) :
  foldl (λ acc k, acc +:+ f k) init l
  = init +:+ foldr (λ k rest, f k +:+ rest) "" l.
Proof.
  revert init. induction l as [|k l IH]; intros init; csimpl.
  - by rewrite append_nil_r.
  - by rewrite IH, append_assoc.
Qed.

Lemma keyElems_keyNames e (NoColor : bool) :
  keyElems keyColor NoColor e
  = (foldr (λ k rest, color.Sprint keyColor NoColor ("[" +:+ k +:+ "=*]") +:+ rest)
           "" (Spec.keyNames e),
     match Spec.keyNames e with
     | [] => ""
     | _ => color.Sprint keyColor NoColor (GoStrings.Join (Spec.keyNames e) ",")
     end).
Proof.
  unfold keyElems, Spec.keyNames. case_decide; [done|].
  rewrite (foldl_append (λ k, color.Sprint keyColor NoColor ("[" +:+ k +:+ "=*]"))).
  unfold GoStrings.Split.
  by destruct (GoStrings.splitFrom " " 0 (Entry.Key e)).
Qed.

Lemma keyNames_Join e (keys : list string) :
  Forall Spec.keyName keys →
  Entry.Key e = GoStrings.Join keys " " →
  Spec.keyNames e = keys.
Proof.
  intros Hkeys Hkey. unfold Spec.keyNames. rewrite Hkey.
  destruct keys as [|k keys]; [done|].
  rewrite decide_False; [by apply Split_Join_keys|].
  apply Forall_cons in Hkeys as [[Hk _] _]. rewrite Join_cons.
  destruct k; [done|]. by rewrite append_cons.
Qed.

Lemma unionMember_renderMember (ut : Type_.t) :
  unionMember ut = Spec.renderMember ut.
Proof.
  unfold unionMember, Spec.renderMember.
  destruct (Type_.IdentityBase ut); [done|].
  by destruct (YangType.Kind (Type_.YangType ut)).
Qed.

End Segments.

(** C3: the segment a list node adds to each path is made of its name
    and of its key names, in their order: for XPath the name and one
    [[key=*]] per key name, for RESTCONF the name, [=] and the key
    names separated by commas; a list without keys adds its name, and
    for RESTCONF the [=] after it.  The key names are the pieces of the
    key between single spaces: the names themselves when the key is
    the names separated by single spaces.  Key elements are decorated
    in bold when colours are on, and are as written here when they are
    off. *)
Theorem C3_list_segments (keyColor typeColor : color.Color)
    (e : Entry.t) (p : Path.t) (ps : list Path.t) (termcolor : bool) :
  Entry.Node_ e = ListNode →
  (Path.XPath (visit keyColor typeColor e p ps termcolor).1
   = Path.XPath p
     +:+ Spec.xpathSegment (color.Sprint keyColor (negb termcolor))
           (Entry.Name e) (Spec.keyNames e)
   ∧ Path.RestConfPath (visit keyColor typeColor e p ps termcolor).1
     = Path.RestConfPath p
       +:+ Spec.restconfSegment (color.Sprint keyColor (negb termcolor))
             (Entry.Name e) (Spec.keyNames e))
  ∧ (∀ keys, Forall Spec.keyName keys →
             Entry.Key e = GoStrings.Join keys " " →
             Spec.keyNames e = keys).
Proof.
  intros Hnode. split; [|apply keyNames_Join].
  unfold visit. rewrite Hnode, (keyElems_keyNames keyColor e (negb termcolor)).
  cbn [fst]. unfold inheritConfig. by case_decide.
Qed.

Lemma C3_list_segments_witness :
  (Path.XPath (visit color.Bold color.Faint Sample.listname Path.zero [] false).1
   = "/listname[id=*][index=*]"
   ∧ Path.RestConfPath (visit color.Bold color.Faint Sample.listname Path.zero [] false).1
     = "/listname=id,index")
  ∧ (Path.XPath (visit color.Bold color.Faint Sample.keyless Path.zero [] false).1
     = "/listname"
     ∧ Path.RestConfPath (visit color.Bold color.Faint Sample.keyless Path.zero [] false).1
       = "/listname=").
Proof.
  split.
  - apply (proj1 (C3_list_segments color.Bold color.Faint Sample.listname
                    Path.zero [] false eq_refl)).
  - apply (proj1 (C3_list_segments color.Bold color.Faint Sample.keyless
                    Path.zero [] false eq_refl)).
Defined.

(** C2, as the specification has it, fails: the type string of a leaf
    whose type is the union of an identity reference based on [Foo] and
    of an enumeration with the names [A] and [B] starts with the name
    of the type, and the names of the enumeration are quoted one by
    one inside the square brackets. *)
Lemma C2_union_type_string_differs :
  Path.SType <$> Paths color.Bold color.Faint Sample.union_leaf Path.zero [] false
  = [ "union{identityref->Foo enumeration["
      +:+ dquote +:+ "A" +:+ dquote +:+ " " +:+ dquote +:+ "B" +:+ dquote +:+ "]}" ]
  ∧ Path.SType <$> Paths color.Bold color.Faint Sample.union_leaf Path.zero [] false
    ≠ [ "{identityref->Foo enumeration" +:+ dquote +:+ "[A B]" +:+ dquote +:+ "}" ].
Proof. split; [reflexivity | discriminate]. Qed.

(** C2, amended: the type string of a leaf of union kind is the name
    of its type, then [->] and the identity base if the type has one,
    then, between braces, the renderings of the member types in their
    order, separated by one space; a member renders as [identityref->]
    and its base if it has an identity base, else, if it is an
    enumeration, as [enumeration] followed by its names, each between
    double quotes, separated by spaces, between square brackets, else
    as its name.  Each of the parts is decorated in faint when colours
    are on. *)
Theorem C2_union_type_string (keyColor typeColor : color.Color)
    (e : Entry.t) (leaf : Type_.t) (p : Path.t) (ps : list Path.t)
    (termcolor : bool) :
  Entry.Node_ e = LeafNode leaf →
  YangType.Kind (Entry.Type_ e) = Yunion →
  ∃ record,
    (visit keyColor typeColor e p ps termcolor).2 = ps ++ [record]
    ∧ Path.SType record
      = color.Sprint typeColor (negb termcolor) (Type_.Name leaf)
        +:+ match Type_.IdentityBase leaf with
            | Some base => color.Sprint typeColor (negb termcolor) ("->" +:+ base)
            | None => ""
            end
        +:+ color.Sprint typeColor (negb termcolor)
              ("{" +:+ GoStrings.Join (Spec.renderMember <$> Type_.Type_ leaf) " "
                   +:+ "}").
Proof.
  intros Hnode Hkind. unfold visit. rewrite Hnode. eexists. split; [done|].
  cbn [Path.SType Path.set_SType]. unfold leafSType. rewrite Hkind.
  rewrite (list_fmap_ext unionMember Spec.renderMember (Type_.Type_ leaf))
    by (intros; apply unionMember_renderMember).
  cbv zeta. repeat (case_decide; try done).
  destruct (Type_.IdentityBase leaf); by rewrite ?append_assoc.
Qed.

Lemma C2_union_type_string_witness :
  ∃ record,
    (visit color.Bold color.Faint Sample.union_leaf Path.zero [] false).2
    = [] ++ [record]
    ∧ Path.SType record
      = "union" +:+ "" +:+ "{"
        +:+ GoStrings.Join (Spec.renderMember <$> Type_.Type_ Sample.union_type) " "
        +:+ "}".
Proof.
  apply (C2_union_type_string color.Bold color.Faint Sample.union_leaf
           Sample.union_type Path.zero [] false); reflexivity.
Defined.

(** ** Text mode: the node filter and the state indicator *)

Section TextMode.

Implicit Types (v : viper.t) (p : Path.t) (paths : list Path.t).

(** The text loop prints the rows of the records it does not skip. *)
Lemma textMode_printRows v paths :
  cmd.textMode v paths
  = Spec.printRows v (filter (λ p, cmd.skipped v p = false) paths).
Proof.
  induction paths as [|p paths IH]; [done|].
  rewrite filter_cons. simpl. destruct (cmd.skipped v p) eqn:Hs.
  - rewrite decide_False by done. exact IH.
  - rewrite decide_True by done. simpl.
    destruct (cmd.rowElems v p); [|done]. by rewrite IH.
Qed.

Lemma skipped_state v p :
  viper.path_only_nodes v = "state" →
  cmd.skipped v p = false ↔ Path.Config p = TSFalse.
Proof.
  intros Hv. unfold cmd.skipped. rewrite Hv. simpl.
  rewrite bool_decide_eq_false. destruct (Path.Config p); intuition congruence.
Qed.

Lemma skipped_config v p :
  viper.path_only_nodes v = "config" →
  cmd.skipped v p = false ↔ Path.Config p = TSTrue ∨ Path.Config p = TSUnset.
Proof.
  intros Hv. unfold cmd.skipped. rewrite Hv. simpl.
  rewrite bool_decide_eq_false. destruct (Path.Config p); intuition congruence.
Qed.

Lemma skipped_all v p :
  viper.path_only_nodes v = "all" → cmd.skipped v p = false.
Proof. intros Hv. unfold cmd.skipped. by rewrite Hv. Qed.

End TextMode.

(** C1, as the specification has it, fails: under the filter [state]
    the record with unset state is left out, and under [config] it is
    printed.  Of the records [/a] (rw), [/b] (ro) and [/c] (unset) the
    filter [state] prints [/b] alone, not [/b] and [/c]. *)
Lemma C1_state_filter_drops_unset :
  cmd.textMode (Sample.only "state") Sample.records
    = ([Stdout ("/b" +:+ newline)], Ok tt)
  ∧ cmd.textMode (Sample.only "state") Sample.records
    ≠ Spec.printRows (Sample.only "state")
        (filter (λ p, Path.Config p = TSFalse ∨ Path.Config p = TSUnset)
                Sample.records).
Proof. split; [reflexivity | discriminate]. Qed.

(** C1, amended: in text mode the filter [state] prints exactly the
    records whose state is ro; the filter [config] prints exactly the
    records whose state is rw or unset (an unset state counts as
    config); the filter [all] prints every record. *)
Theorem C1_text_filter (v : viper.t) (paths : list Path.t) :
  (viper.path_only_nodes v = "state" →
   cmd.textMode v paths
   = Spec.printRows v (filter (λ p, Path.Config p = TSFalse) paths))
  ∧ (viper.path_only_nodes v = "config" →
     cmd.textMode v paths
     = Spec.printRows v
         (filter (λ p, Path.Config p = TSTrue ∨ Path.Config p = TSUnset) paths))
  ∧ (viper.path_only_nodes v = "all" →
     cmd.textMode v paths = Spec.printRows v paths).
Proof.
  rewrite textMode_printRows. repeat split; intros Hv; f_equal.
  - apply list_filter_iff. intros p. by apply skipped_state.
  - apply list_filter_iff. intros p. by apply skipped_config.
  - induction paths as [|p paths IH]; [done|].
    rewrite filter_cons_True by by apply skipped_all. by f_equal.
Qed.

Lemma C1_text_filter_witness :
  cmd.textMode (Sample.only "state") Sample.records
  = Spec.printRows (Sample.only "state")
      (filter (λ p, Path.Config p = TSFalse) Sample.records)
  ∧ cmd.textMode (Sample.only "config") Sample.records
    = Spec.printRows (Sample.only "config")
        (filter (λ p, Path.Config p = TSTrue ∨ Path.Config p = TSUnset)
                Sample.records)
  ∧ cmd.textMode (Sample.only "all") Sample.records
    = Spec.printRows (Sample.only "all") Sample.records.
Proof.
  split; [|split].
  - apply (proj1 (C1_text_filter (Sample.only "state") Sample.records)).
    reflexivity.
  - apply (proj1 (proj2 (C1_text_filter (Sample.only "config") Sample.records))).
    reflexivity.
  - apply (proj2 (proj2 (C1_text_filter (Sample.only "all") Sample.records))).
    reflexivity.
Defined.

(** C9: with the node state indicator enabled, the row of a record has,
    after the module name if that is printed, the element ["[ro]"] when
    the state of the record is false and ["[rw]"] in every other case,
    the unset state included; the line printed for a record that is not
    filtered out is that row. *)
Theorem C9_state_indicator (v : viper.t) (p : Path.t) (paths : list Path.t)
    (elems : list string) :
  viper.path_node_state v = true →
  cmd.skipped v p = false →
  cmd.rowElems v p = Some elems →
  (∃ rest,
     elems = (if decide (viper.path_with_module v = "yes")
              then [Path.Module_ p] else [])
             ++ match Path.Config p with
                | TSFalse => "[ro]"
                | TSTrue | TSUnset => "[rw]"
                end :: rest)
  ∧ (cmd.textMode v (p :: paths)).1
    = Stdout (GoStrings.Join elems "  " +:+ newline) :: (cmd.textMode v paths).1.
Proof.
  intros Hst Hskip Hrow. split.
  - revert Hrow. unfold cmd.rowElems. rewrite Hst.
    assert (cmd.cfgElem p = match Path.Config p with
                            | TSFalse => "[ro]" | _ => "[rw]" end) as ->.
    { unfold cmd.cfgElem. by destruct (Path.Config p). }
    set (ind := match Path.Config p with TSFalse => "[ro]" | _ => "[rw]" end).
    intros Hrow.
    repeat case_decide; simplify_option_eq; rewrite <- ?app_assoc; simpl; eauto.
  - simpl. rewrite Hskip, Hrow. simpl. by destruct (cmd.textMode v paths).
Qed.

Lemma C9_state_indicator_witness :
  (∃ rest, ["[rw]"; "/c"; "string"] = [] ++ "[rw]" :: rest)
  ∧ (cmd.textMode Sample.defaults [Sample.record "/c" TSUnset]).1
    = [Stdout (GoStrings.Join ["[rw]"; "/c"; "string"] "  " +:+ newline)].
Proof.
  apply (C9_state_indicator Sample.defaults (Sample.record "/c" TSUnset) []
           ["[rw]"; "/c"; "string"]); reflexivity.
Defined.

(** ** The HTML renderer *)

Section Template.

Context (v : viper.t) (readFile : string → Res string) (Tmpl : Type)
        (Parse : string → Res Tmpl)
        (Execute : Tmpl → templateIntput → string * option error).

Abbreviation templateVars := (path.templateVars).
Abbreviation outTemplate := (path.outTemplate v readFile).
Abbreviation Template := (path.Template v readFile Tmpl Parse Execute).

Lemma templateVars_bindings (vars : list string) (m m' : gmap string string)
    (ignored : list string) :
  Spec.bindings vars m m' ignored →
  templateVars vars m = (Spec.ignoring <$> ignored, Ok m').
Proof.
  induction 1 as [m|var k val vars m m' ignored [-> Hfirst] _ IH
                 |var vars m m' ignored Hnone _ IH].
  - done.
  - cbn [path.templateVars]. unfold GoStrings.Split.
    rewrite splitFrom_first by done. cbn [length hd tl Nat.ltb Nat.leb].
    by rewrite Join_splitFrom.
  - cbn [path.templateVars]. unfold GoStrings.Split.
    rewrite splitFrom_None by done. cbn [length Nat.ltb Nat.leb].
    rewrite IH. done.
Qed.

(** Every variable has a first separator or none. *)
Lemma bindings_total (vars : list string) (m : gmap string string) :
  ∃ m' ignored, Spec.bindings vars m m' ignored.
Proof.
  revert m. induction vars as [|var vars IH]; intros m.
  - exists m, []. constructor.
  - destruct (Spec.Index var ":::") as [i|] eqn:Hi.
    + destruct (Index_Some_split _ _ _ Hi) as (k & val & Hvar & Hk).
      destruct (IH (<[ k := val ]> m)) as (m' & ignored & Hb).
      exists m', ignored. apply (Spec.bindings_bind var k val); [|done].
      split; [done | by rewrite Hk].
    + destruct (IH m) as (m' & ignored & Hb).
      exists m', (var :: ignored). by apply Spec.bindings_ignore.
Qed.

(** A run of [Template] whose template body loads and parses. *)
Lemma Template_run (t : string) (ps : list Path.t) (vars : list string)
    (evs : list Event) (body : string) (tmpl : Tmpl)
    (m : gmap string string) (ignored : list string) :
  outTemplate t = (evs, Ok body) →
  Parse body = Ok tmpl →
  Spec.bindings vars ∅ m ignored →
  Template t ps vars
  = (evs ++ (Spec.ignoring <$> ignored)
         ++ [Stdout (Execute tmpl (mkTemplateIntput ps m)).1],
     match (Execute tmpl (mkTemplateIntput ps m)).2 with
     | Some err => Err err
     | None => Ok tt
     end).
Proof.
  intros Hout Hparse Hb. unfold path.Template, bind. rewrite Hout, Hparse.
  rewrite (templateVars_bindings _ _ _ _ Hb).
  destruct (Execute tmpl (mkTemplateIntput ps m)) as [out [err|]];
    cbn; by rewrite ?app_nil_r.
Qed.

(** After the template body is chosen no file is read. *)
Lemma Template_events (t : string) (ps : list Path.t) (vars : list string) :
  ∃ rest, (Template t ps vars).1 = (outTemplate t).1 ++ rest
          ∧ ∀ filename, ReadFile filename ∉ rest.
Proof.
  destruct (outTemplate t) as [evs [body|err]] eqn:Hout.
  - destruct (Parse body) as [tmpl|err] eqn:Hparse.
    + destruct (bindings_total vars ∅) as (m & ignored & Hb).
      rewrite (Template_run t ps vars evs body tmpl m ignored) by done.
      eexists. split; [done|]. intros filename.
      rewrite elem_of_app, list_elem_of_fmap, list_elem_of_singleton.
      by intros [(var & ? & _)|?].
    + exists []. unfold path.Template, bind. rewrite Hout, Hparse. cbn.
      split; [done|]. intros filename. apply not_elem_of_nil.
  - exists []. unfold path.Template, bind. rewrite Hout. cbn.
    split; [by rewrite app_nil_r|]. intros filename. apply not_elem_of_nil.
Qed.

End Template.

(** C8: for every list of template variables, each variable either has
    a first separator [:::], and then binds the text before it to all
    the text after it (later separators included), or has none, and
    then is logged and left out of the bindings; the template is
    executed all the same, with the bindings of the other variables. *)
Theorem C8_template_variables (v : viper.t) (readFile : string → Res string)
    (Tmpl : Type) (Parse : string → Res Tmpl)
    (Execute : Tmpl → templateIntput → string * option error)
    (t : string) (ps : list Path.t) (vars : list string)
    (evs : list Event) (body : string) (tmpl : Tmpl) :
  path.outTemplate v readFile t = (evs, Ok body) →
  Parse body = Ok tmpl →
  (∃ m ignored, Spec.bindings vars ∅ m ignored)
  ∧ (∀ m ignored,
       Spec.bindings vars ∅ m ignored →
       path.Template v readFile Tmpl Parse Execute t ps vars
       = (evs ++ (Spec.ignoring <$> ignored)
              ++ [Stdout (Execute tmpl (mkTemplateIntput ps m)).1],
          match (Execute tmpl (mkTemplateIntput ps m)).2 with
          | Some err => Err err
          | None => Ok tt
          end)).
Proof.
  intros Hout Hparse. split; [apply bindings_total|].
  intros m ignored Hb. by eapply Template_run.
Qed.

Lemma C8_template_variables_witness :
  path.Template Sample.html Sample.readFile string Sample.Parse Sample.Execute
    "" [] ["foo:::bar:::baz"; "oops"]
  = ([] ++ [LogPrintf "ignoring variable oops"]
        ++ [Stdout (Sample.Execute defTemplate
                      (mkTemplateIntput [] (<[ "foo" := "bar:::baz" ]> ∅))).1],
     Ok tt).
Proof.
  apply (proj2 (C8_template_variables Sample.html Sample.readFile string
                  Sample.Parse Sample.Execute "" [] ["foo:::bar:::baz"; "oops"]
                  [] defTemplate defTemplate eq_refl eq_refl)
               (<[ "foo" := "bar:::baz" ]> ∅) ["oops"]).
  apply (Spec.bindings_bind _ "foo" "bar:::baz"); [by split|].
  apply Spec.bindings_ignore; [reflexivity|]. apply Spec.bindings_nil.
Defined.

(** C10: [Template] looks at its argument [t] only to see whether it is
    empty.  When it is not, the file read is the one named by the value
    [path-template] of viper, whatever [t] names, and it is the only
    file read; when it is, no file is read and the body is the default
    template. *)
Theorem C10_template_argument (v : viper.t) (readFile : string → Res string)
    (Tmpl : Type) (Parse : string → Res Tmpl)
    (Execute : Tmpl → templateIntput → string * option error)
    (t : string) (ps : list Path.t) (vars : list string) :
  (t ≠ "" →
   (∀ t', t' ≠ "" →
          path.Template v readFile Tmpl Parse Execute t' ps vars
          = path.Template v readFile Tmpl Parse Execute t ps vars)
   ∧ path.outTemplate v readFile t
     = ([ReadFile (viper.path_template v)], readFile (viper.path_template v))
   ∧ ∃ rest,
       (path.Template v readFile Tmpl Parse Execute t ps vars).1
       = ReadFile (viper.path_template v) :: rest
       ∧ ∀ filename, ReadFile filename ∉ rest)
  ∧ (t = "" →
     path.outTemplate v readFile t = ([], Ok defTemplate)
     ∧ ∀ filename,
         ReadFile filename
         ∉ (path.Template v readFile Tmpl Parse Execute t ps vars).1).
Proof.
  split.
  - intros Ht.
    assert (path.outTemplate v readFile t
            = ([ReadFile (viper.path_template v)],
               readFile (viper.path_template v))) as Hout.
    { unfold path.outTemplate. by rewrite decide_True. }
    split; [|split; [done|]].
    + intros t' Ht'. unfold path.Template, path.outTemplate.
      by rewrite !decide_True.
    + destruct (Template_events v readFile Tmpl Parse Execute t ps vars)
        as (rest & Hevs & Hrest).
      exists rest. by rewrite Hevs, Hout.
  - intros ->. split; [done|].
    destruct (Template_events v readFile Tmpl Parse Execute "" ps vars)
      as (rest & Hevs & Hrest).
    by rewrite Hevs.
Qed.

Lemma C10_template_argument_witness :
  (path.Template Sample.html Sample.readFile string Sample.Parse Sample.Execute
     "another.tmpl" [] []).1
  = [ReadFile Sample.template_file; Stdout "<p>{{.Vars.foo}}</p>"]
  ∧ ∃ rest,
      (path.Template Sample.html Sample.readFile string Sample.Parse
         Sample.Execute "another.tmpl" [] []).1
      = ReadFile (viper.path_template Sample.html) :: rest
      ∧ ∀ filename, ReadFile filename ∉ rest.
Proof.
  split; [reflexivity|].
  apply (proj1 (C10_template_argument Sample.html Sample.readFile string
                  Sample.Parse Sample.Execute "another.tmpl" [] [])).
  discriminate.
Defined.

(** * Further properties *)

(** ** The records by the chains of their leaves *)

Section Chains.

Context (keyColor typeColor : color.Color).

Abbreviation Paths := (path.Paths keyColor typeColor).
Abbreviation visit := (path.visit keyColor typeColor).
Abbreviation along := (Spec.along keyColor typeColor).

Implicit Types (e : Entry.t) (p : Path.t) (ps : list Path.t) (tc : bool)
               (chain : list Entry.t).

(** The record of a leaf is the accumulator after the nodes of its
    chain, whatever else the tree holds. *)
Lemma Paths_chains e p tc :
  Paths e p [] tc = along tc p <$> Spec.chains e.
Proof.
  revert p. induction e as [e IH] using Entry_ind_dir. intros p.
  apply (children_Forall (λ c, ∀ p, Paths c p [] tc
                                    = along tc p <$> Spec.chains c)) in IH.
  rewrite (Paths_children keyColor typeColor), chains_unfold, fmap_app. f_equal.
  - by destruct (isLeaf e).
  - rewrite <- list_fmap_compose.
    change (along tc p ∘ cons e) with (along tc (visit e p [] tc).1).
    generalize (visit e p [] tc).1. intros p'.
    induction IH as [|c cs Hc _ IHcs]; [done|]. csimpl.
    by rewrite fmap_app, Hc, IHcs.
Qed.

(** Every chain ends in a leaf. *)
Lemma chains_last e :
  Forall (λ chain, ∃ chain' l, chain = chain' ++ [l] ∧ isLeaf l = true)
         (Spec.chains e).
Proof.
  induction e as [e IH] using Entry_ind_dir.
  apply (children_Forall (λ c, Forall (λ chain, ∃ chain' l,
           chain = chain' ++ [l] ∧ isLeaf l = true) (Spec.chains c))) in IH.
  rewrite chains_unfold. apply Forall_app. split.
  - destruct (isLeaf e) eqn:He; [|constructor].
    constructor; [|constructor]. by exists [], e.
  - apply Forall_fmap. induction IH as [|c cs Hc _ IHcs]; [constructor|].
    csimpl. apply Forall_app. split; [|done].
    eapply Forall_impl; [done|]. cbn beta. intros chain (chain' & l & -> & Hl).
    by exists (e :: chain'), l.
Qed.

Lemma inheritConfig_fields e p :
  Path.Module_ (inheritConfig e p) = Path.Module_ p
  ∧ Path.XPath (inheritConfig e p) = Path.XPath p
  ∧ Path.RestConfPath (inheritConfig e p) = Path.RestConfPath p.
Proof. unfold inheritConfig. by case_decide. Qed.

Lemma visit_XPath e p ps tc :
  Path.XPath (visit e p ps tc).1
  = Path.XPath p +:+ Spec.xpathStep (color.Sprint keyColor (negb tc)) e.
Proof.
  unfold path.visit, Spec.xpathStep.
  destruct (Entry.Node_ e); cbn [fst]; rewrite ?append_nil_r; try done.
  - by destruct (inheritConfig_fields e
        (Path.set_RestConfPath (Path.RestConfPath
           (Path.set_XPath (Path.XPath p +:+ "/" +:+ Entry.Name e) p)
           +:+ "/" +:+ Entry.Name e)
           (Path.set_XPath (Path.XPath p +:+ "/" +:+ Entry.Name e) p)))
        as (_ & -> & _).
  - rewrite (keyElems_keyNames keyColor e (negb tc)). cbn [fst Path.XPath
      Path.set_XPath Path.set_RestConfPath].
    by destruct (inheritConfig_fields e p) as (_ & -> & _).
  - by destruct (inheritConfig_fields e p) as (_ & -> & _).
  - cbn [Path.XPath Path.set_XPath Path.set_RestConfPath Path.set_Type
         Path.set_SType].
    by destruct (inheritConfig_fields e p) as (_ & -> & _).
Qed.

Lemma visit_RestConfPath e p ps tc :
  Path.RestConfPath (visit e p ps tc).1
  = Path.RestConfPath p
    +:+ Spec.restconfStep (color.Sprint keyColor (negb tc)) e.
Proof.
  unfold path.visit, Spec.restconfStep.
  destruct (Entry.Node_ e); cbn [fst]; rewrite ?append_nil_r; try done.
  - by destruct (inheritConfig_fields e
        (Path.set_RestConfPath (Path.RestConfPath
           (Path.set_XPath (Path.XPath p +:+ "/" +:+ Entry.Name e) p)
           +:+ "/" +:+ Entry.Name e)
           (Path.set_XPath (Path.XPath p +:+ "/" +:+ Entry.Name e) p)))
        as (_ & _ & ->).
  - rewrite (keyElems_keyNames keyColor e (negb tc)). cbn [fst Path.XPath
      Path.RestConfPath Path.set_XPath Path.set_RestConfPath].
    by destruct (inheritConfig_fields e p) as (_ & _ & ->).
  - by destruct (inheritConfig_fields e p) as (_ & _ & ->).
  - cbn [Path.XPath Path.RestConfPath Path.set_XPath Path.set_RestConfPath
         Path.set_Type Path.set_SType].
    by destruct (inheritConfig_fields e p) as (_ & _ & ->).
Qed.

Lemma along_paths tc p chain :
  Path.XPath (along tc p chain)
  = Path.XPath p
    +:+ Spec.concat (Spec.xpathStep (color.Sprint keyColor (negb tc)) <$> chain)
  ∧ Path.RestConfPath (along tc p chain)
    = Path.RestConfPath p
      +:+ Spec.concat (Spec.restconfStep (color.Sprint keyColor (negb tc)) <$> chain).
Proof.
  revert p. induction chain as [|e chain IH]; intros p.
  - cbn. by rewrite !append_nil_r.
  - destruct (IH (visit e p [] tc).1) as [IHx IHr]. split.
    + change (along tc p (e :: chain)) with (along tc (visit e p [] tc).1 chain).
      rewrite IHx, visit_XPath. csimpl. cbn [Spec.concat foldr].
      by rewrite append_assoc.
    + change (along tc p (e :: chain)) with (along tc (visit e p [] tc).1 chain).
      rewrite IHr, visit_RestConfPath. csimpl. cbn [Spec.concat foldr].
      by rewrite append_assoc.
Qed.

Lemma visit_Module e p ps tc :
  Path.Module_ (visit e p ps tc).1
  = match Entry.Node_ e with
    | ModuleNode => Entry.Name e
    | _ => Path.Module_ p
    end.
Proof.
  unfold path.visit. destruct (Entry.Node_ e); cbn [fst]; try done.
  - by destruct (inheritConfig_fields e
        (Path.set_RestConfPath (Path.RestConfPath
           (Path.set_XPath (Path.XPath p +:+ "/" +:+ Entry.Name e) p)
           +:+ "/" +:+ Entry.Name e)
           (Path.set_XPath (Path.XPath p +:+ "/" +:+ Entry.Name e) p)))
        as (-> & _ & _).
  - destruct (keyElems keyColor (negb tc) e). cbn [fst Path.Module_
      Path.set_XPath Path.set_RestConfPath].
    by destruct (inheritConfig_fields e p) as (-> & _ & _).
  - by destruct (inheritConfig_fields e p) as (-> & _ & _).
  - cbn [Path.Module_ Path.set_XPath Path.set_RestConfPath Path.set_Type
         Path.set_SType].
    by destruct (inheritConfig_fields e p) as (-> & _ & _).
Qed.

Lemma moduleName_app (init : string) (l1 l2 : list Entry.t) :
  Spec.moduleName init (l1 ++ l2) = Spec.moduleName (Spec.moduleName init l2) l1.
Proof.
  induction l1 as [|e l1 IH]; [done|]. simpl. by destruct (Entry.Node_ e).
Qed.

Lemma along_Module tc p chain :
  Path.Module_ (along tc p chain)
  = Spec.moduleName (Path.Module_ p) (reverse chain).
Proof.
  revert p. induction chain as [|e chain IH]; intros p; [done|].
  change (along tc p (e :: chain)) with (along tc (visit e p [] tc).1 chain).
  rewrite IH, reverse_cons, moduleName_app, visit_Module. simpl.
  by destruct (Entry.Node_ e).
Qed.

(** With colours off the decorations play no part. *)
Lemma visit_nocolor (keyColor' typeColor' : color.Color) e p ps :
  visit e p ps false = path.visit keyColor' typeColor' e p ps false.
Proof. reflexivity. Qed.

Lemma Paths_nocolor (keyColor' typeColor' : color.Color) e :
  ∀ p ps, Paths e p ps false = path.Paths keyColor' typeColor' e p ps false.
Proof.
  induction e as [e IH] using Entry_ind_dir. intros p ps.
  rewrite (Paths_unfold keyColor typeColor),
    (Paths_unfold keyColor' typeColor').
  rewrite <- (visit_nocolor keyColor' typeColor').
  assert (Forall (λ kc, ∀ p ps, Paths (snd kc) p ps false
            = path.Paths keyColor' typeColor' (snd kc) p ps false)
                 (Spec.sortedDir e)) as Hsub.
  { apply Forall_forall. intros kc Hkc%sortedDir_elem_of.
    by eapply Forall_forall in IH. }
  generalize (visit e p ps false).1 (visit e p ps false).2. intros p' ps'.
  revert ps'. induction Hsub as [|kc l Hkc _ IHl]; intros ps'; [done|].
  csimpl. by rewrite Hkc, IHl.
Qed.

End Chains.

(** X1: the XPath and the RESTCONF path of a record are those of the
    accumulator the walk started from, followed by what the nodes of
    the chain of the leaf add, from the root of the walk down to the
    leaf: a container and a leaf add their name, a list its segment, a
    module, a leaf-list and any other node nothing. *)
Theorem X1_paths_along_chain (keyColor typeColor : color.Color)
    (e : Entry.t) (p : Path.t) (ps : list Path.t) (termcolor : bool) :
  Path.XPath <$> Paths keyColor typeColor e p ps termcolor
  = (Path.XPath <$> ps)
    ++ ((λ chain,
           Path.XPath p
           +:+ Spec.concat
                 (Spec.xpathStep (color.Sprint keyColor (negb termcolor)) <$> chain))
        <$> Spec.chains e)
  ∧ Path.RestConfPath <$> Paths keyColor typeColor e p ps termcolor
    = (Path.RestConfPath <$> ps)
      ++ ((λ chain,
             Path.RestConfPath p
             +:+ Spec.concat
                   (Spec.restconfStep (color.Sprint keyColor (negb termcolor))
                    <$> chain))
          <$> Spec.chains e).
Proof.
  rewrite (Paths_app keyColor typeColor), !fmap_app,
    (Paths_chains keyColor typeColor), <- !list_fmap_compose.
  split; f_equal; apply list_fmap_ext; intros _ chain _; unfold compose;
    by destruct (along_paths keyColor typeColor termcolor p chain) as [Hx Hr].
Qed.

(** X2: the module name of a record is the name of the nearest module
    node among the leaf and its ancestors, and the module name of the
    accumulator the walk started from when there is none. *)
Theorem X2_module_of_record (keyColor typeColor : color.Color)
    (e : Entry.t) (p : Path.t) (ps : list Path.t) (termcolor : bool) :
  Path.Module_ <$> Paths keyColor typeColor e p ps termcolor
  = (Path.Module_ <$> ps)
    ++ ((λ chain, Spec.moduleName (Path.Module_ p) (reverse chain))
        <$> Spec.chains e).
Proof.
  rewrite (Paths_app keyColor typeColor), fmap_app,
    (Paths_chains keyColor typeColor), <- list_fmap_compose.
  f_equal. apply list_fmap_ext. intros _ chain _. unfold compose.
  apply along_Module.
Qed.

(** The type and the type string of a record are those of the leaf
    that ends its chain. *)
Lemma Paths_leaf (keyColor typeColor : color.Color)
    (e : Entry.t) (p : Path.t) (termcolor : bool) :
  Forall2 (λ record chain,
             ∃ l leaf,
               last chain = Some l
               ∧ Entry.Node_ l = LeafNode leaf
               ∧ Path.Type_ record = Some leaf
               ∧ Path.SType record = leafSType typeColor (negb termcolor) l leaf)
          (Paths keyColor typeColor e p [] termcolor) (Spec.chains e).
Proof.
  rewrite (Paths_chains keyColor typeColor). apply Forall2_fmap_l.
  apply Forall_Forall2_diag. eapply Forall_impl; [apply chains_last|].
  cbn beta. intros chain (chain' & l & -> & Hl).
  unfold isLeaf in Hl. destruct (Entry.Node_ l) as [| | | |leaf|] eqn:Hnode;
    try done.
  exists l, leaf. rewrite last_snoc. split; [done|]. split; [done|].
  unfold Spec.along. rewrite foldl_app. cbn [foldl]. unfold visit.
  by rewrite Hnode.
Qed.

Lemma Paths_typed (keyColor typeColor : color.Color)
    (e : Entry.t) (p : Path.t) (termcolor : bool) :
  Forall Spec.typed (Paths keyColor typeColor e p [] termcolor).
Proof.
  eapply Forall2_Forall_l; [apply Paths_leaf|].
  apply Forall_forall. intros chain _ record (l & leaf & _ & _ & Hty & _).
  unfold Spec.typed. by rewrite Hty.
Qed.

(** X3: the type and the type string of a record are those of its
    leaf: the type statement of the leaf, and the string built from the
    leaf alone; nothing of them comes from the accumulator or from the
    ancestors.  In particular every record has a type. *)
Theorem X3_type_of_record (keyColor typeColor : color.Color)
    (e : Entry.t) (p : Path.t) (termcolor : bool) :
  Forall2 (λ record chain,
             ∃ l leaf,
               last chain = Some l
               ∧ Entry.Node_ l = LeafNode leaf
               ∧ Path.Type_ record = Some leaf
               ∧ Path.SType record = leafSType typeColor (negb termcolor) l leaf)
          (Paths keyColor typeColor e p [] termcolor) (Spec.chains e).
Proof. apply Paths_leaf. Qed.

(** X4: with colours off the records do not depend on the decorations
    of key elements and of type strings. *)
Theorem X4_no_color (keyColor typeColor keyColor' typeColor' : color.Color)
    (e : Entry.t) (p : Path.t) (ps : list Path.t) :
  Paths keyColor typeColor e p ps false
  = Paths keyColor' typeColor' e p ps false.
Proof. apply Paths_nocolor. Qed.

(** ** The text output of the walk *)

Section Text.

Implicit Types (v : viper.t) (p : Path.t) (paths : list Path.t).

Lemma bind_ret_l {A B} (a : A) (k : A → M B) : bind (ret a) k = k a.
Proof. unfold bind, ret. by destruct (k a). Qed.

Lemma bind_assoc {A B C} (m : M A) (k : A → M B) (h : B → M C) :
  bind (bind m k) h = bind m (λ a, bind (k a) h).
Proof.
  destruct m as [evs [a|err]]; [|done]. unfold bind.
  destruct (k a) as [evs' [b|err]]; [|done].
  destruct (h b) as [evs'' r]. by rewrite app_assoc.
Qed.

Lemma textMode_app v paths1 paths2 :
  cmd.textMode v (paths1 ++ paths2)
  = bind (cmd.textMode v paths1) (λ _, cmd.textMode v paths2).
Proof.
  induction paths1 as [|p paths1 IH].
  - cbn [app cmd.textMode]. by rewrite bind_ret_l.
  - cbn [app cmd.textMode]. destruct (cmd.skipped v p); [done|].
    destruct (cmd.rowElems v p) as [elems|]; [|done].
    by rewrite bind_assoc, IH.
Qed.

Lemma rowElems_typed v p : Spec.typed p → is_Some (cmd.rowElems v p).
Proof.
  intros [ty Hty]. unfold cmd.rowElems. rewrite Hty.
  repeat case_decide; by eexists.
Qed.

(** On records that have a type the loop does not panic: it prints one
    line per record that it does not skip. *)
Lemma textMode_typed v paths :
  Forall Spec.typed paths →
  ∃ lines, cmd.textMode v paths = (Stdout <$> lines, Ok tt)
           ∧ length lines = length (filter (λ p, cmd.skipped v p = false) paths).
Proof.
  induction 1 as [|p paths Hp _ (lines & IH & Hlen)].
  - by exists [].
  - cbn [cmd.textMode]. rewrite filter_cons.
    destruct (cmd.skipped v p) eqn:Hs.
    + rewrite decide_False by done. by exists lines.
    + rewrite decide_True by done.
      destruct (rowElems_typed v p Hp) as [elems ->]. rewrite IH.
      exists ((GoStrings.Join elems "  " +:+ newline) :: lines).
      split; [done|]. cbn. by rewrite Hlen.
Qed.

Lemma skipped_config_state (vc vs : viper.t) p :
  viper.path_only_nodes vc = "config" →
  viper.path_only_nodes vs = "state" →
  cmd.skipped vc p = negb (cmd.skipped vs p).
Proof.
  intros Hc Hs. unfold cmd.skipped. rewrite Hc, Hs. cbn.
  by destruct (Path.Config p).
Qed.

Lemma skipped_other v p :
  viper.path_only_nodes v ≠ "config" →
  viper.path_only_nodes v ≠ "state" →
  cmd.skipped v p = false.
Proof. intros Hc Hs. unfold cmd.skipped. by rewrite !decide_False. Qed.

End Text.

(** X5: the filters [config] and [state] split the records: a record
    is skipped by one of them exactly when it is printed by the other,
    so that on records that have a type (those of the walker) the
    lines printed under [config] and the lines printed under [state]
    are together as many as the records. *)
Theorem X5_config_state_split (vc vs : viper.t) (paths : list Path.t) :
  viper.path_only_nodes vc = "config" →
  viper.path_only_nodes vs = "state" →
  Forall Spec.typed paths →
  (∀ p, cmd.skipped vc p = negb (cmd.skipped vs p))
  ∧ (length (cmd.textMode vc paths).1 + length (cmd.textMode vs paths).1
     = length paths)%nat.
Proof.
  intros Hc Hs Hty. split; [intros p; by apply skipped_config_state|].
  destruct (textMode_typed vc paths Hty) as (lc & -> & Hlc).
  destruct (textMode_typed vs paths Hty) as (ls & -> & Hls).
  cbn [fst]. rewrite !length_fmap, Hlc, Hls. clear Hty Hlc Hls.
  induction paths as [|p paths IH]; [done|]. rewrite !filter_cons.
  rewrite (skipped_config_state vc vs p) by done.
  destruct (cmd.skipped vs p); cbn [negb]; repeat (case_decide; try done);
    cbn [length]; rewrite <- IH, ?Nat.add_succ_r; reflexivity.
Qed.

Lemma X5_config_state_split_witness :
  (length (cmd.textMode (Sample.only "config")
             (Paths color.Bold color.Faint Sample.tree Path.zero [] false)).1
   + length (cmd.textMode (Sample.only "state")
               (Paths color.Bold color.Faint Sample.tree Path.zero [] false)).1
   = 5)%nat.
Proof.
  apply (proj2 (X5_config_state_split (Sample.only "config") (Sample.only "state")
                  (Paths color.Bold color.Faint Sample.tree Path.zero [] false)
                  eq_refl eq_refl
                  (Paths_typed color.Bold color.Faint Sample.tree Path.zero false))).
Defined.

(** X6: a value of [path-only-nodes] that is neither [config] nor
    [state] is not refused: every record is printed, as under [all]. *)
Theorem X6_unknown_filter (v : viper.t) (paths : list Path.t) :
  viper.path_only_nodes v ≠ "config" →
  viper.path_only_nodes v ≠ "state" →
  cmd.textMode v paths = Spec.printRows v paths.
Proof.
  intros Hc Hs. rewrite textMode_printRows. f_equal.
  induction paths as [|p paths IH]; [done|].
  rewrite filter_cons_True by by apply skipped_other. by f_equal.
Qed.

Lemma X6_unknown_filter_witness :
  cmd.textMode (Sample.only "everything") Sample.records
  = Spec.printRows (Sample.only "everything") Sample.records.
Proof.
  apply (X6_unknown_filter (Sample.only "everything") Sample.records);
    discriminate.
Defined.

(** X7: the text loop works through the records in order: the output
    for two lists of records one after the other is the output for the
    first followed by the output for the second, and a panic on a
    record of the first list leaves the second unprinted. *)
Theorem X7_text_in_order (v : viper.t) (paths1 paths2 : list Path.t) :
  cmd.textMode v (paths1 ++ paths2)
  = bind (cmd.textMode v paths1) (λ _, cmd.textMode v paths2).
Proof. apply textMode_app. Qed.

(** X8: in text format the command prints lines and nothing else and
    ends without error, whatever the tree: the records of the walker
    all have the type that [path.Type.Name] reads.  Under a filter that
    is neither [config] nor [state] the lines are as many as the leaf
    nodes of a well-formed tree. *)
Theorem X8_export_text (v : viper.t) (readFile : string → Res string)
    (Tmpl : Type) (Parse : string → Res Tmpl)
    (Execute : Tmpl → templateIntput → string * option error) (e : Entry.t) :
  viper.path_format v = "text" →
  ∃ lines,
    cmd.RunE v readFile Tmpl Parse Execute e = (Stdout <$> lines, Ok tt)
    ∧ (viper.path_only_nodes v ≠ "config" →
       viper.path_only_nodes v ≠ "state" →
       Spec.wf e = true →
       length lines = Spec.leaves e).
Proof.
  intros Hfmt. unfold cmd.RunE. rewrite Hfmt.
  rewrite decide_True by done. rewrite decide_False by done.
  set (paths := Paths color.Bold color.Faint e Path.zero []
                  (negb (viper.path_no_color v))).
  destruct (textMode_typed v paths) as (lines & -> & Hlen);
    [apply Paths_typed|].
  exists lines. split; [cbn; by rewrite app_nil_r|].
  intros Hc Hs Hwf. rewrite Hlen.
  rewrite <- (length_Paths color.Bold color.Faint e Path.zero
                (negb (viper.path_no_color v))) by done.
  fold paths. f_equal. clear Hlen.
  induction paths as [|p paths IH]; [done|].
  rewrite filter_cons_True by by apply skipped_other. by f_equal.
Qed.

Lemma X8_export_text_witness :
  ∃ lines,
    cmd.RunE Sample.defaults Sample.readFile string Sample.Parse Sample.Execute
      Sample.tree
    = (Stdout <$> lines, Ok tt)
    ∧ (viper.path_only_nodes Sample.defaults ≠ "config" →
       viper.path_only_nodes Sample.defaults ≠ "state" →
       Spec.wf Sample.tree = true →
       length lines = Spec.leaves Sample.tree).
Proof.
  apply (X8_export_text Sample.defaults Sample.readFile string Sample.Parse
           Sample.Execute Sample.tree).
  reflexivity.
Defined.

(** ** Template variables and template errors *)

Section Variables_.

Implicit Types (var k val : string) (vars : list string)
               (m : gmap string string).

Lemma append_length_inj (k k' x x' : string) :
  k +:+ x = k' +:+ x' → String.length k = String.length k' → k = k' ∧ x = x'.
Proof.
  revert k'. induction k as [|c k IH]; intros [|c' k']; try done.
  rewrite !append_cons. intros [= -> Heq] [= Hlen].
  by destruct (IH k' Heq Hlen) as [-> ->].
Qed.

(** A variable has one key and one value. *)
Lemma firstSeparator_inj var k val k' val' :
  Spec.firstSeparator var k val → Spec.firstSeparator var k' val' →
  k = k' ∧ val = val'.
Proof.
  intros [Hvar Hi] [Hvar' Hi']. rewrite Hi in Hi'. injection Hi' as Hlen.
  rewrite Hvar in Hvar'.
  destruct (append_length_inj _ _ _ _ Hvar' Hlen) as [-> Hrest].
  split; [done|]. by apply (inj (String.append ":::")) in Hrest.
Qed.

Lemma firstSeparator_Index var k val :
  Spec.firstSeparator var k val → Spec.Index var ":::" ≠ None.
Proof. intros [_ Hi]. by rewrite Hi. Qed.

(** The key of a variable holds no separator. *)
Lemma firstSeparator_key var k val :
  Spec.firstSeparator var k val → Spec.Index k ":::" = None.
Proof.
  intros [Hvar Hi]. destruct (Spec.Index k ":::") as [j|] eqn:Hj; [|done].
  destruct (Index_Some_split _ _ _ Hj) as (a & b & Hk & Ha).
  assert (var = a +:+ ":::" +:+ (b +:+ ":::" +:+ val)) as Hvar'.
  { by rewrite Hvar, Hk, !append_assoc. }
  pose proof (Index_first _ _ _ _ _ Hi Hvar') as Hle.
  rewrite Hk, !length_append in Hle. simpl in Hle. lia.
Qed.

Lemma bindings_app vars1 vars2 m m' (ignored : list string) :
  Spec.bindings (vars1 ++ vars2) m m' ignored →
  ∃ m1 ignored1 ignored2,
    Spec.bindings vars1 m m1 ignored1 ∧ Spec.bindings vars2 m1 m' ignored2.
Proof.
  revert m ignored. induction vars1 as [|var vars1 IH]; intros m ignored Hb.
  - exists m, [], ignored. split; [constructor | done].
  - inversion Hb as [|? k val ? ? ? ? Hfirst Hrest|? ? ? ? ign Hnone Hrest];
      subst; apply IH in Hrest as (m1 & i1 & i2 & H1 & H2).
    + exists m1, i1, i2. split; [|done]. by eapply Spec.bindings_bind.
    + exists m1, (var :: i1), i2. split; [|done]. by apply Spec.bindings_ignore.
Qed.

(** Variables with other keys leave the binding of a key as it is. *)
Lemma bindings_other vars m m' (ignored : list string) k :
  Spec.bindings vars m m' ignored →
  (∀ var val, var ∈ vars → ¬ Spec.firstSeparator var k val) →
  m' !! k = m !! k.
Proof.
  induction 1 as [m|var k0 val0 vars m m' ignored Hfirst _ IH
                 |var vars m m' ignored Hnone _ IH]; intros Hk.
  - done.
  - rewrite IH by (intros var' val' Hin; apply Hk; by right).
    apply lookup_insert_ne. intros ->. by apply (Hk var val0); [left|].
  - apply IH. intros var' val' Hin. apply Hk. by right.
Qed.

(** A binding comes from a variable, or was there before. *)
Lemma bindings_origin vars m m' (ignored : list string) k val :
  Spec.bindings vars m m' ignored →
  m' !! k = Some val →
  m !! k = Some val ∨ ∃ var, var ∈ vars ∧ Spec.firstSeparator var k val.
Proof.
  induction 1 as [m|var k0 val0 vars m m' ignored Hfirst _ IH
                 |var vars m m' ignored Hnone _ IH]; intros Hk.
  - by left.
  - destruct (IH Hk) as [Hm|(var' & Hin & Hvar')].
    + destruct (decide (k0 = k)) as [->|Hne].
      * rewrite lookup_insert_eq in Hm. injection Hm as ->.
        right. exists var. split; [left | done].
      * rewrite lookup_insert_ne in Hm by done. by left.
    + right. exists var'. split; [by right | done].
  - destruct (IH Hk) as [Hm|(var' & Hin & Hvar')]; [by left|].
    right. exists var'. split; [by right | done].
Qed.

Lemma templateVars_Ok vars m0 :
  ∃ m ignored, Spec.bindings vars m0 m ignored
               ∧ path.templateVars vars m0 = (Spec.ignoring <$> ignored, Ok m).
Proof.
  destruct (bindings_total vars m0) as (m & ignored & Hb).
  exists m, ignored. split; [done|]. by apply templateVars_bindings.
Qed.

End Variables_.

(** X9: what the loop over the template variables leaves in the
    template context.  Every binding comes from a variable, and a key
    is bound to the value of the last variable that has this key: a
    later variable replaces an earlier one with the same key. *)
Theorem X9_last_variable_wins (vars : list string) (evs : list Event)
    (m : gmap string string) :
  path.templateVars vars ∅ = (evs, Ok m) →
  (∀ k val, m !! k = Some val →
            ∃ var, var ∈ vars ∧ Spec.firstSeparator var k val)
  ∧ (∀ vars1 var vars2 k val,
       vars = vars1 ++ var :: vars2 →
       Spec.firstSeparator var k val →
       (∀ var' val', var' ∈ vars2 → ¬ Spec.firstSeparator var' k val') →
       m !! k = Some val).
Proof.
  intros Hrun. destruct (templateVars_Ok vars ∅) as (m' & ignored & Hb & Hrun').
  rewrite Hrun in Hrun'. injection Hrun' as _ ->. split.
  - intros k val Hk.
    destruct (bindings_origin _ _ _ _ _ _ Hb Hk) as [Hempty|?]; [|done].
    by rewrite lookup_empty in Hempty.
  - intros vars1 var vars2 k val -> Hfirst Hlater.
    apply bindings_app in Hb as (m1 & i1 & i2 & _ & Hb).
    inversion Hb as [|? k0 val0 ? ? ? ? Hfirst0 Hrest|? ? ? ? ? Hnone Hrest]; subst.
    + destruct (firstSeparator_inj _ _ _ _ _ Hfirst Hfirst0) as [<- <-].
      rewrite (bindings_other _ _ _ _ k Hrest) by done.
      apply lookup_insert_eq.
    + by apply firstSeparator_Index in Hfirst.
Qed.

Lemma X9_last_variable_wins_witness :
  (<[ "a" := "3" ]> (<[ "b" := "2" ]> (<[ "a" := "1" ]> (∅ : gmap string string))))
    !! "a" = Some "3".
Proof.
  apply (proj2 (X9_last_variable_wins ["a:::1"; "b:::2"; "a:::3"] [] _ eq_refl)
               ["a:::1"; "b:::2"] "a:::3" [] "a" "3" eq_refl).
  - by split.
  - intros var' val' Hin. by apply elem_of_nil in Hin.
Defined.

(** X10: the pieces that the loop makes of a variable.  A variable
    without separator is one piece, itself.  Otherwise the first piece,
    the key, holds no separator and ends where the first separator of
    the variable starts, and the key, the separator and the other
    pieces joined again by the separator, the value, make up the
    variable. *)
Theorem X10_variable_pieces (var : string) :
  match GoStrings.Split var ":::" with
  | [] => False
  | [piece] => piece = var ∧ Spec.Index var ":::" = None
  | k :: rest =>
      k +:+ ":::" +:+ GoStrings.Join rest ":::" = var
      ∧ Spec.Index k ":::" = None
      ∧ Spec.Index var ":::" = Some (String.length k)
  end.
Proof.
  unfold GoStrings.Split. destruct (Spec.Index var ":::") as [i|] eqn:Hi.
  - destruct (Index_Some_split _ _ _ Hi) as (k & val & -> & <-).
    rewrite splitFrom_first by done.
    pose proof (Join_splitFrom ":" "::" val) as Hjoin.
    destruct (GoStrings.splitFrom ":::" 0 val) as [h t]. cbn [fst snd] in *.
    rewrite Hjoin. split; [done|]. split; [|done].
    by apply (firstSeparator_key (k +:+ ":::" +:+ val) k val).
  - by rewrite splitFrom_None.
Qed.

(** X11: a template that cannot be read or cannot be parsed ends
    [Template] at once, with the error: no variable is looked at (none
    is logged) and nothing is written. *)
Theorem X11_template_errors (v : viper.t) (readFile : string → Res string)
    (Tmpl : Type) (Parse : string → Res Tmpl)
    (Execute : Tmpl → templateIntput → string * option error)
    (t : string) (ps : list Path.t) (vars : list string) :
  (∀ err, t ≠ "" →
          readFile (viper.path_template v) = Err err →
          path.Template v readFile Tmpl Parse Execute t ps vars
          = ([ReadFile (viper.path_template v)], Err err))
  ∧ (∀ evs body err,
       path.outTemplate v readFile t = (evs, Ok body) →
       Parse body = Err err →
       path.Template v readFile Tmpl Parse Execute t ps vars = (evs, Err err)).
Proof.
  split.
  - intros err Ht Hread. unfold path.Template, path.outTemplate.
    rewrite decide_True by done. unfold path.ioutil_ReadFile. cbn.
    by rewrite Hread.
  - intros evs body err Hout Hparse. unfold path.Template, bind.
    rewrite Hout, Hparse. cbn. by rewrite app_nil_r.
Qed.

Lemma X11_template_errors_witness :
  path.Template Sample.html_missing Sample.readFile string Sample.Parse
    Sample.Execute "table.tmpl" [] ["oops"]
  = ([ReadFile "missing.tmpl"], Err "open: no such file or directory")
  ∧ path.Template Sample.html Sample.readFile string Sample.ParseFail
      Sample.Execute "" [] ["oops"]
    = ([], Err "template: unexpected EOF").
Proof.
  split.
  - apply (proj1 (X11_template_errors Sample.html_missing Sample.readFile string
                    Sample.Parse Sample.Execute "table.tmpl" [] ["oops"])).
    + discriminate.
    + reflexivity.
  - apply (proj2 (X11_template_errors Sample.html Sample.readFile string
                    Sample.ParseFail Sample.Execute "" [] ["oops"])
                 [] defTemplate); reflexivity.
Defined.

(** ** The key of a list *)

Lemma splitFrom_byte (a : ascii) (s : string) :
  length (GoStrings.splitFrom (String a "") 0 s).2 = Spec.countByte a s.
Proof.
  induction s as [|c s IH]; [done|]. cbn [GoStrings.splitFrom Spec.countByte].
  cbn [GoStrings.HasPrefix String.length Nat.sub].
  destruct (GoStrings.splitFrom (String a "") 0 s) as [h t]. cbn [snd] in IH.
  destruct (decide (a = c)) as [->|Hne].
  - rewrite decide_True by done. cbn. by rewrite IH.
  - rewrite decide_False by done. cbn. by rewrite IH.
Qed.

(** X12: the key of a list is cut at every single space, and at
    nothing else: the key elements of a list with a key are one more
    than the spaces of the key, so that two spaces in a row, or a space
    at either end, give an empty key name. *)
Theorem X12_key_elements (e : Entry.t) :
  Entry.Key e ≠ "" →
  length (Spec.keyNames e) = S (Spec.countByte " " (Entry.Key e))
  ∧ Spec.keyNames e = GoStrings.Split (Entry.Key e) " ".
Proof.
  intros Hkey. unfold Spec.keyNames. rewrite decide_False by done.
  split; [|done]. unfold GoStrings.Split.
  pose proof (splitFrom_byte " " (Entry.Key e)) as Hlen.
  destruct (GoStrings.splitFrom " " 0 (Entry.Key e)) as [h t].
  cbn [snd] in Hlen. cbn [length]. by rewrite Hlen.
Qed.

Lemma X12_key_elements_witness :
  length (Spec.keyNames (Entry.mk "l" ListNode TSUnset "id  index" Sample.no_type []))
  = 3%nat
  ∧ Spec.keyNames (Entry.mk "l" ListNode TSUnset "id  index" Sample.no_type [])
    = ["id"; ""; "index"].
Proof.
  apply (X12_key_elements
           (Entry.mk "l" ListNode TSUnset "id  index" Sample.no_type [])).
  discriminate.
Defined.

(** ** The modules read *)

Section Modules.

Implicit Types (iter : list (string * Module_.t))
               (Modules : gmap string Module_.t) (mn k : string).

(** The bindings whose key has no revision. *)
Abbreviation bare iter :=
  (filter (λ km : string * Module_.t, GoStrings.Contains (fst km) "@" = false) iter).

Lemma rangeModules_lookup iter Modules mn k :
  (cmd.rangeModules iter Modules mn).1 !! k
  = if GoStrings.Contains k "@" && bool_decide (k ∈ fst <$> iter)
    then None else Modules !! k.
Proof.
  revert Modules mn. induction iter as [|[k0 m0] iter IH]; intros Modules mn.
  - by rewrite andb_false_r.
  - cbn [cmd.rangeModules]. csimpl.
    destruct (GoStrings.Contains k0 "@") eqn:Hk0; rewrite IH.
    + destruct (decide (k = k0)) as [->|Hne].
      * rewrite Hk0, lookup_delete_eq.
        rewrite (bool_decide_eq_true_2 (k0 ∈ k0 :: _)) by left.
        by destruct (bool_decide _).
      * rewrite lookup_delete_ne by done.
        rewrite (bool_decide_ext (k ∈ k0 :: (fst <$> iter)) (k ∈ fst <$> iter));
          [done|].
        rewrite elem_of_cons. split; [by intros [?|?] | by right].
    + destruct (GoStrings.Contains k "@") eqn:Hk; [|done]. cbn [andb].
      rewrite (bool_decide_ext (k ∈ k0 :: (fst <$> iter)) (k ∈ fst <$> iter));
        [done|].
      rewrite elem_of_cons. split; [|by right]. intros [->|?]; [|done].
      congruence.
Qed.

Lemma rangeModules_mn iter Modules mn :
  (cmd.rangeModules iter Modules mn).2
  = from_option (λ km, Module_.Name (snd km)) mn (last (bare iter)).
Proof.
  revert Modules mn. induction iter as [|[k0 m0] iter IH]; intros Modules mn.
  - done.
  - cbn [cmd.rangeModules]. rewrite filter_cons. cbn [fst].
    destruct (GoStrings.Contains k0 "@") eqn:Hk0.
    + rewrite decide_False by done. apply IH.
    + rewrite decide_True by done. rewrite IH, last_cons.
      by destruct (last (bare iter)).
Qed.

Lemma bare_last iter k :
  k ∈ fst <$> iter → GoStrings.Contains k "@" = false →
  ∃ km, last (bare iter) = Some km ∧ km ∈ iter
        ∧ GoStrings.Contains (fst km) "@" = false.
Proof.
  intros ([k' m] & -> & Hin)%list_elem_of_fmap Hk. cbn [fst] in Hk.
  destruct (last (bare iter)) as [km|] eqn:Hlast.
  - exists km. split; [done|]. apply last_Some_elem_of in Hlast.
    by apply list_elem_of_filter in Hlast as [? ?].
  - apply last_None in Hlast.
    assert ((k', m) ∈ bare iter) as Hbare by by apply list_elem_of_filter.
    rewrite Hlast in Hbare. by apply elem_of_nil in Hbare.
Qed.

End Modules.

Lemma rangeModules_remaining (iter : list (string * Module_.t))
    (Modules : gmap string Module_.t) (mn k : string) :
  iter ≡ₚ map_to_list Modules →
  (cmd.rangeModules iter Modules mn).1 !! k
  = if GoStrings.Contains k "@" then None else Modules !! k.
Proof.
  intros Hiter. rewrite rangeModules_lookup.
  destruct (GoStrings.Contains k "@"); [|done]. cbn [andb].
  case_bool_decide as Hin; [done|].
  destruct (Modules !! k) as [m|] eqn:Hk; [|done]. destruct Hin.
  apply list_elem_of_fmap. exists (k, m). split; [done|].
  rewrite Hiter. by apply elem_of_map_to_list.
Qed.

(** X13: after the loop over the modules read, the map holds the
    modules whose key has no [@], each as it was, and no other: every
    module stored under a name with a revision is removed. *)
Theorem X13_revisions_removed (iter : list (string * Module_.t))
    (Modules : gmap string Module_.t) (mn k : string) :
  iter ≡ₚ map_to_list Modules →
  (cmd.rangeModules iter Modules mn).1 !! k
  = if GoStrings.Contains k "@" then None else Modules !! k.
Proof. apply rangeModules_remaining. Qed.

Lemma modules_iter :
  Sample.modules ≡ₚ map_to_list (list_to_map Sample.modules : gmap string Module_.t).
Proof.
  symmetry. apply map_to_list_to_map. apply NoDup_cons.
  split; [by intros ?%list_elem_of_singleton | apply NoDup_singleton].
Qed.

Lemma modules_named (k : string) (m : Module_.t) :
  (list_to_map Sample.modules : gmap string Module_.t) !! k = Some m →
  GoStrings.Contains k "@" = false → Module_.Name m = k.
Proof.
  intros Hk%elem_of_list_to_map_2 Hc.
  apply elem_of_cons in Hk as [[= -> ->]|Hk]; [done|].
  by apply list_elem_of_singleton in Hk as [= -> ->].
Qed.

Lemma X13_revisions_removed_witness :
  (cmd.rangeModules Sample.modules (list_to_map Sample.modules) "").1
    !! "foo@2020-01-01"
  = None.
Proof.
  apply (X13_revisions_removed Sample.modules (list_to_map Sample.modules) ""
           "foo@2020-01-01").
  apply modules_iter.
Defined.

(** X14: the name [mn] found by the loop over the modules read, every
    module without revision being stored under its own name.  If a key
    without [@] exists, [mn] is such a key and the map after the loop
    binds it to the module of that name; if only one exists, [mn] is
    that key, in whatever order the map is gone through; if none
    exists, [mn] stays empty. *)
Theorem X14_module_name (iter : list (string * Module_.t))
    (Modules : gmap string Module_.t) :
  iter ≡ₚ map_to_list Modules →
  (∀ k m, Modules !! k = Some m → GoStrings.Contains k "@" = false →
          Module_.Name m = k) →
  ((∀ k, k ∈ fst <$> iter → GoStrings.Contains k "@" = true) →
   (cmd.rangeModules iter Modules "").2 = "")
  ∧ (∀ k, k ∈ fst <$> iter → GoStrings.Contains k "@" = false →
          (∃ m, (cmd.rangeModules iter Modules "").1
                  !! (cmd.rangeModules iter Modules "").2 = Some m
                ∧ Module_.Name m = (cmd.rangeModules iter Modules "").2
                ∧ GoStrings.Contains (cmd.rangeModules iter Modules "").2 "@" = false)
          ∧ ((∀ k', k' ∈ fst <$> iter → GoStrings.Contains k' "@" = false → k' = k) →
             (cmd.rangeModules iter Modules "").2 = k)).
Proof.
  intros Hiter Hname. rewrite rangeModules_mn. split.
  - intros Hall. destruct (last _) as [[k m]|] eqn:Hlast; [|done].
    apply last_Some_elem_of, list_elem_of_filter in Hlast as [Hk Hin].
    cbn [fst] in Hk. rewrite Hall in Hk; [done|].
    apply list_elem_of_fmap. by exists (k, m).
  - intros k Hin Hk.
    destruct (bare_last iter k Hin Hk) as ([k1 m1] & Hlast & Hin1 & Hk1).
    rewrite Hlast. cbn [from_option snd fst] in *.
    assert (Modules !! k1 = Some m1) as Hm1.
    { apply elem_of_map_to_list. by rewrite <- Hiter. }
    rewrite (Hname k1 m1 Hm1 Hk1). split.
    + exists m1. rewrite (rangeModules_remaining iter Modules "" k1 Hiter), Hk1.
      by rewrite (Hname k1 m1 Hm1 Hk1).
    + intros Huniq. apply Huniq; [|done].
      apply list_elem_of_fmap. by exists (k1, m1).
Qed.

Lemma X14_module_name_witness :
  (cmd.rangeModules Sample.modules (list_to_map Sample.modules) "").2 = "foo".
Proof.
  apply (proj2 (proj2 (X14_module_name Sample.modules
                         (list_to_map Sample.modules) modules_iter modules_named)
                      "foo" ltac:(right; left) eq_refl)).
  intros k' Hin Hc.
  apply elem_of_cons in Hin as [->|Hin]; [done|].
  by apply list_elem_of_singleton in Hin.
Defined.

(** ** Quoted names *)

Section Quote.

Implicit Types (s t : string) (r d : N).

Lemma printable_app s t :
  Spec.printable (s +:+ t) = Spec.printable s && Spec.printable t.
Proof.
  induction s as [|c s IH]; [done|]. rewrite append_cons. simpl.
  by rewrite IH, andb_assoc.
Qed.

Lemma printable_lowerhex d : Spec.printable (GoFmt.lowerhex d) = true.
Proof.
  unfold GoFmt.lowerhex. generalize (N.to_nat d). intros n.
  do 16 (destruct n as [|n]; [done|]). done.
Qed.

Lemma printable_hexDigits (n : nat) r : Spec.printable (GoFmt.hexDigits n r) = true.
Proof.
  induction n as [|n IH]; [done|]. cbn [GoFmt.hexDigits].
  by rewrite printable_app, printable_lowerhex, IH.
Qed.

Lemma printable_byteString r :
  0x20 ≤ r → r ≤ 0x7E → Spec.printable (GoFmt.byteString r) = true.
Proof.
  intros Hlo Hhi. unfold GoFmt.byteString. cbn [Spec.printable].
  rewrite N_ascii_embedding by lia.
  by rewrite (proj2 (N.leb_le _ _) Hlo), (proj2 (N.leb_le _ _) Hhi).
Qed.

Lemma printable_appendEscapedRune r :
  Spec.printable (GoFmt.appendEscapedRune r) = true.
Proof.
  unfold GoFmt.appendEscapedRune.
  destruct (r =? 34) eqn:H34.
  { apply N.eqb_eq in H34 as ->. done. }
  destruct (r =? 92) eqn:H92.
  { apply N.eqb_eq in H92 as ->. done. }
  cbn [orb].
  destruct ((r <? 0x80) && (0x20 <=? r) && (r <? 0x7F)) eqn:Hp.
  { apply andb_true_iff in Hp as [[_ Hlo]%andb_true_iff Hhi].
    apply N.leb_le in Hlo. apply N.ltb_lt in Hhi.
    apply printable_byteString; lia. }
  repeat (match goal with |- context [if ?b then _ else _] => destruct b end;
          try done);
    rewrite printable_app, printable_hexDigits; done.
Qed.

Lemma printable_appendQuoted (skip : nat) s :
  Spec.printable (GoFmt.appendQuoted skip s) = true.
Proof.
  revert skip. induction s as [|c s IH]; intros skip; [done|].
  cbn [GoFmt.appendQuoted]. destruct skip as [|skip]; [|apply IH].
  destruct (if N_of_ascii c <? 0x80 then _ else _) as [r width].
  rewrite printable_app, IH, andb_true_r.
  destruct (_ && _); [|apply printable_appendEscapedRune].
  by rewrite printable_app, printable_hexDigits.
Qed.

Lemma printable_QuoteToASCII s : Spec.printable (GoFmt.QuoteToASCII s) = true.
Proof.
  unfold GoFmt.QuoteToASCII. by rewrite !printable_app, printable_appendQuoted.
Qed.

Lemma printable_Join (l : list string) (sep : string) :
  Forall (λ s, Spec.printable s = true) l → Spec.printable sep = true →
  Spec.printable (GoStrings.Join l sep) = true.
Proof.
  intros Hl Hsep. induction Hl as [|s l Hs _ IH]; [done|].
  rewrite Join_cons, printable_app, Hs. destruct l; [done|].
  by rewrite printable_app, Hsep, IH.
Qed.

Lemma printable_SprintfPlusQ (names : list string) :
  Spec.printable (GoFmt.SprintfPlusQ names) = true.
Proof.
  unfold GoFmt.SprintfPlusQ. rewrite !printable_app, printable_Join; [done| |done].
  apply Forall_fmap, Forall_forall. intros s _. apply printable_QuoteToASCII.
Qed.

End Quote.

(** X15: the names of an enumeration reach a type string through
    [%+q], which leaves printable ASCII bytes only: whatever bytes the
    names hold (quotes, control characters, bytes above 0x7F), the list
    of the names, and with it the rendering of an enumeration among the
    members of a union, is made of bytes from 0x20 to 0x7E. *)
Theorem X15_enumeration_names_ascii (names : list string) (ut : Type_.t) :
  Spec.printable (GoFmt.SprintfPlusQ names) = true
  ∧ (Type_.IdentityBase ut = None →
     YangType.Kind (Type_.YangType ut) = Yenum →
     Spec.printable (unionMember ut) = true).
Proof.
  split; [apply printable_SprintfPlusQ|].
  intros Hbase Hkind. unfold unionMember. rewrite Hbase, Hkind.
  rewrite decide_True by done.
  by rewrite printable_app, printable_SprintfPlusQ.
Qed.

Lemma X15_enumeration_names_ascii_witness :
  Spec.printable
    (unionMember
       (Type_.mk "enumeration" None
          (YangType.mk Yenum "" [String "233"%char "t" +:+ newline; dquote]) []))
  = true.
Proof.
  apply (proj2 (X15_enumeration_names_ascii []
                  (Type_.mk "enumeration" None
                     (YangType.mk Yenum ""
                        [String "233"%char "t" +:+ newline; dquote]) [])));
    reflexivity.
Defined.
